(** * pyssi: a Server-Side-Includes directive interpreter

    Shallow embedding of [pyssi/__init__.py] and verification of the
    properties stated about it.

    Documents are ASCII texts, held as [string].  A Python [dict] with string
    keys is a [gmap string _]; Python exceptions are values of [exn]; the
    evaluation context, which the program mutates in place and which outlives
    a raised exception, is threaded explicitly through a state-and-error
    monad. *)

From Stdlib Require Import String Ascii List Arith Lia Bool.
From stdpp Require Import base option list strings gmap fin_maps.

Set Default Proof Using "Type".


(** ** Python strings *)

Module Py.

(** The characters that cannot be written inside a string literal here. *)
Definition dquote : ascii := Eval cbv in ascii_of_nat 34.
Definition backslash : ascii := Eval cbv in ascii_of_nat 92.
Definition TAB : ascii := Eval cbv in ascii_of_nat 9.
Definition LF : ascii := Eval cbv in ascii_of_nat 10.
Definition CR : ascii := Eval cbv in ascii_of_nat 13.
Definition FF : ascii := Eval cbv in ascii_of_nat 12.

Definition ascii_eqb (a b : ascii) : bool := Ascii.eqb a b.

Definition in_range (lo hi : nat) (c : ascii) : bool :=
  let n := nat_of_ascii c in Nat.leb lo n && Nat.leb n hi.

(** [str.isspace] on one ASCII character. *)
Definition isspace (c : ascii) : bool :=
  in_range 9 13 c || in_range 28 32 c.

Definition islower (c : ascii) : bool := in_range 97 122 c.
Definition isdigit (c : ascii) : bool := in_range 48 57 c.
Definition ishex (c : ascii) : bool :=
  isdigit c || in_range 97 102 c || in_range 65 70 c.

(** Membership in [string.printable]. *)
Definition isprintable (c : ascii) : bool :=
  in_range 32 126 c || in_range 9 13 c.

Definition upper_char (c : ascii) : ascii :=
  if islower c then ascii_of_nat (nat_of_ascii c - 32) else c.

(** [s.upper()] *)
Fixpoint upper (s : string) : string :=
  match s with
  | EmptyString => EmptyString
  | String c s' => String (upper_char c) (upper s')
  end.

(** [s.lstrip()] *)
Fixpoint lstrip (s : string) : string :=
  match s with
  | String c s' => if isspace c then lstrip s' else s
  | EmptyString => EmptyString
  end.

(** [s.rstrip()] *)
Fixpoint rstrip (s : string) : string :=
  match s with
  | EmptyString => EmptyString
  | String c s' =>
      match rstrip s' with
      | EmptyString => if isspace c then EmptyString else String c EmptyString
      | r => String c r
      end
  end.

(** [s.strip()] *)
Definition strip (s : string) : string := rstrip (lstrip s).

(** [c in s] for a single character [c]. *)
Fixpoint contains (c : ascii) (s : string) : bool :=
  match s with
  | EmptyString => false
  | String d s' => ascii_eqb c d || contains c s'
  end.

(** [s.startswith(p)], returning what follows the prefix. *)
Fixpoint strip_prefix (p s : string) : option string :=
  match p, s with
  | EmptyString, _ => Some s
  | String a p', String b s' => if ascii_eqb a b then strip_prefix p' s' else None
  | String _ _, EmptyString => None
  end.

(** [s.index(needle)] on the text from the current position on: the text
    before the first occurrence and the text after it, [None] standing
    for [ValueError]. *)
Fixpoint index (needle s : string) : option (string * string) :=
  match strip_prefix needle s with
  | Some rest => Some (EmptyString, rest)
  | None =>
      match s with
      | EmptyString => None
      | String c s' =>
          match index needle s' with
          | Some (before, rest) => Some (String c before, rest)
          | None => None
          end
      end
  end.

(** The maximal prefix of characters satisfying [p], and the rest. *)
Fixpoint span (p : ascii -> bool) (s : string) : string * string :=
  match s with
  | String c s' =>
      if p c then let '(a, b) := span p s' in (String c a, b) else (EmptyString, s)
  | EmptyString => (EmptyString, EmptyString)
  end.

(** [s.split(maxsplit=1)]: the first word, and the remainder with the
    white space before it removed, when there is one. *)
Definition split1 (s : string) : list string :=
  match lstrip s with
  | EmptyString => []
  | s1 =>
      let '(w, r) := span (fun c => negb (isspace c)) s1 in
      match lstrip r with
      | EmptyString => [w]
      | r' => [w; r']
      end
  end.

(** [s.expandtabs()] with the default tab size of 8. *)
Fixpoint expandtabs_from (col : nat) (s : string) : string :=
  match s with
  | EmptyString => EmptyString
  | String c s' =>
      if ascii_eqb c TAB then
        let n := 8 - col mod 8 in
        String.concat EmptyString (repeat " " n) +:+ expandtabs_from 0 s'
      else if ascii_eqb c LF || ascii_eqb c CR then String c (expandtabs_from 0 s')
      else String c (expandtabs_from (S col) s')
  end.

Definition expandtabs (s : string) : string := expandtabs_from 0 s.

(** A string made of one double quote. *)
Definition q : string := String dquote EmptyString.

End Py.

(** ** Exceptions *)

Inductive exn : Type :=
| KeyError (key : string)
| TypeError
| AttributeError
| ValueError
| ParseException
| EndMarkerNotFound
| IncludeDeclarationError
| ExpressionEvaluationError
| RegexError
| FetchError (target : string)
| RecursionError.

Inductive result (A : Type) : Type :=
| Ok (a : A)
| Raise (e : exn).
Arguments Ok {A} a.
Arguments Raise {A} e.

Definition rbind {A B} (r : result A) (k : A -> result B) : result B :=
  match r with
  | Ok a => k a
  | Raise e => Raise e
  end.

Definition is_ok {A} (r : result A) : bool :=
  match r with Ok _ => true | Raise _ => false end.

(** ** The parsing library

    The elements of the parsing library that the two grammars are built
    from.  Every element skips the white space in front of it; an element is
    a function from the remaining input to its result and what is left. *)

Module Pyparsing.
Import Py.

Definition parser (A : Type) : Type := string -> option (A * string).

(** The library's default white space: blank, newline, tab, return. *)
Definition is_white (c : ascii) : bool :=
  ascii_eqb c " " || ascii_eqb c LF || ascii_eqb c TAB || ascii_eqb c CR.

Fixpoint skip_ws (s : string) : string :=
  match s with
  | String c s' => if is_white c then skip_ws s' else s
  | EmptyString => EmptyString
  end.

(** [Word(chars)]: one or more characters of [chars]. *)
Definition Word (chars : ascii -> bool) : parser string :=
  fun s =>
    match span chars (skip_ws s) with
    | (EmptyString, _) => None
    | (w, r) => Some (w, r)
    end.

(** [Literal(lit)] *)
Definition Literal (lit : string) : parser string :=
  fun s =>
    match strip_prefix lit (skip_ws s) with
    | Some r => Some (lit, r)
    | None => None
    end.

(** The white-space escapes that a quoted string replaces in what it
    returns: a backslash followed by [t], [n], [f] or [r] becomes the
    control character.  The library replaces the four two-character
    texts one after the other; no two of them overlap and no replacement
    makes a new one, so one pass from the left gives the same string. *)
Definition ws_escape (d : ascii) : option ascii :=
  if ascii_eqb d "t" then Some TAB
  else if ascii_eqb d "n" then Some LF
  else if ascii_eqb d "f" then Some FF
  else if ascii_eqb d "r" then Some CR
  else None.

Fixpoint unescape_ws (s : string) : string :=
  match s with
  | EmptyString => EmptyString
  | String c s1 =>
      match s1 with
      | EmptyString => s
      | String d s2 =>
          match (if ascii_eqb c backslash then ws_escape d else None) with
          | Some ctrl => String ctrl (unescape_ws s2)
          | None => String c (unescape_ws s1)
          end
      end
  end.

(** [QuotedString(quoteChar=c, unquoteResults=True)]: the text between
    two [c] on one line, that is [c], characters other than [c] and the
    line breaks, then [c]; the result is the text between the delimiters
    with its white-space escapes replaced. *)
Definition QuotedString (quoteChar : ascii) : parser string :=
  fun s =>
    match skip_ws s with
    | String c s' =>
        if ascii_eqb c quoteChar then
          let inside d := negb (ascii_eqb d quoteChar || ascii_eqb d LF || ascii_eqb d CR) in
          match span inside s' with
          | (body, String c' r) =>
              if ascii_eqb c' quoteChar then Some (unescape_ws body, r) else None
          | (_, EmptyString) => None
          end
        else None
    | EmptyString => None
    end.

(** The body of [dblQuotedString]: ordinary characters, a doubled double
    quote, or a backslash followed by any character, [x] needing at least
    one hexadecimal digit after it. *)
Fixpoint dbl_quoted_body (s : string) : string * string :=
  let stop := (EmptyString, s) in
  let more c r := let '(a, b) := r in (String c a, b) in
  match s with
  | EmptyString => stop
  | String c s1 =>
      if ascii_eqb c dquote then
        match s1 with
        | String c1 s2 =>
            if ascii_eqb c1 dquote then more c (more c1 (dbl_quoted_body s2)) else stop
        | EmptyString => stop
        end
      else if ascii_eqb c backslash then
        match s1 with
        | String c1 s2 =>
            if negb (ascii_eqb c1 "x") then more c (more c1 (dbl_quoted_body s2))
            else
              match s2 with
              | String c2 s3 =>
                  if ishex c2 then more c (more c1 (more c2 (dbl_quoted_body s3)))
                  else stop
              | EmptyString => stop
              end
        | EmptyString => stop
        end
      else if ascii_eqb c LF || ascii_eqb c CR then stop
      else more c (dbl_quoted_body s1)
  end.

(** [dblQuotedString().setParseAction(removeQuotes)] *)
Definition dblQuotedString : parser string :=
  fun s =>
    match skip_ws s with
    | String c s' =>
        if ascii_eqb c dquote then
          match dbl_quoted_body s' with
          | (body, String c' r) => if ascii_eqb c' dquote then Some (body, r) else None
          | (_, EmptyString) => None
          end
        else None
    | EmptyString => None
    end.

Definition ret {A} (a : A) : parser A := fun s => Some (a, s).

(** [a + b]: [a] then [b]. *)
Definition And {A B} (a : parser A) (k : A -> parser B) : parser B :=
  fun s =>
    match a s with
    | Some (x, r) => k x r
    | None => None
    end.

(** [a | b]: the first alternative that matches. *)
Definition MatchFirst {A} (a b : parser A) : parser A :=
  fun s =>
    match a s with
    | Some x => Some x
    | None => b s
    end.

(** [OneOrMore(p)]: [p] as many times as it matches, at least once.  Each
    match consumes input, so a number of rounds equal to the length of the
    input is never used up. *)
Fixpoint ZeroOrMore_n {A} (n : nat) (p : parser A) (s : string) : list A * string :=
  match n with
  | O => ([], s)
  | S n' =>
      match p s with
      | Some (x, r) => let '(xs, r') := ZeroOrMore_n n' p r in (x :: xs, r')
      | None => ([], s)
      end
  end.

Definition OneOrMore {A} (p : parser A) : parser (list A) :=
  fun s =>
    match p s with
    | Some (x, r) =>
        let '(xs, r') := ZeroOrMore_n (String.length r) p r in Some (x :: xs, r')
    | None => None
    end.

(** [p.parseString(text, parseAll=True)]: tabs are expanded first, and
    after [p] only white space may remain. *)
Definition parseString {A} (p : parser A) (text : string) : result A :=
  match p (expandtabs text) with
  | Some (a, r) =>
      match skip_ws r with
      | EmptyString => Ok a
      | String _ _ => Raise ParseException
      end
  | None => Raise ParseException
  end.

End Pyparsing.

(** ** AttributeParser *)

Module AttributeParser.
Import Py Pyparsing.

Definition name_char (c : ascii) : bool :=
  islower c || isdigit c || contains c "$_-".

Definition name : parser string := Word name_char.
Definition sep : parser string := Literal "=".
Definition value : parser string := dblQuotedString.

(** [Group(name + sep + value)] *)
Definition group : parser (string * string) :=
  And name (fun k => And sep (fun _ => And value (fun v => ret (k, v)))).

Definition attributes : parser (list (string * string)) := OneOrMore group.

(** [{k: v for k, v in result}] *)
Definition dict_of (pairs : list (string * string)) : gmap string string :=
  foldl (fun m kv => <[kv.1 := kv.2]> m) ∅ pairs.

Definition parse (text : string) : result (gmap string string) :=
  rbind (parseString attributes text) (fun r => Ok (dict_of r)).

End AttributeParser.

(** ** ExpressionParser *)

(** The named results of a parsed expression. *)
Record tokens : Type := Tokens {
  tok_variable : option string;
  tok_operator : option string;
  tok_text : option string;
  tok_regexp : option string
}.

Module ExpressionParser.
Import Py Pyparsing.

Definition word : parser string := Word (fun c => islower c || ascii_eqb c "_").
Definition variable : parser string := And (Literal "$") (fun _ => word).
Definition _text : parser string := QuotedString "'".
Definition text : parser string := MatchFirst _text (Word isprintable).
Definition regexp : parser string := QuotedString "/".
Definition equal : parser string := Literal "=".
Definition not_equal : parser string := Literal "!=".
Definition operator : parser string := MatchFirst equal not_equal.

(** A results name keeps a token unless the token is the empty string. *)
Definition named (token : string) : option string :=
  match token with
  | EmptyString => None
  | String _ _ => Some token
  end.

Definition expression : parser tokens :=
  MatchFirst
    (And variable (fun v => And operator (fun o => And regexp (fun r =>
       ret (Tokens (Some v) (named o) None (named r))))))
    (MatchFirst
       (And variable (fun v => And operator (fun o => And text (fun t =>
          ret (Tokens (Some v) (named o) (named t) None)))))
       (And variable (fun v => ret (Tokens (Some v) None None None)))).

Definition parse (text : string) : result tokens := parseString expression text.

End ExpressionParser.

(** ** Nodes *)

(** What a node holds as [attributes]: nothing, the literal text of a
    [TEXT] token, or the mapping read by the attribute parser. *)
Inductive attrs : Type :=
| ANone
| AStr (s : string)
| ADict (m : gmap string string).

(** The classes of the module. *)
Inductive kind : Type :=
| KNode | KNoop | KText | KBlock | KEndblock | KConfig | KEcho
| KIf | KElif | KElse | KEndif | KInclude | KSet.

Local Unset Elimination Schemes.
Inductive node : Type :=
| MkNode (cls : kind) (attributes : attrs) (_children _else_tokens : list node).
Local Set Elimination Schemes.

Definition cls (n : node) : kind := let 'MkNode k _ _ _ := n in k.
Definition attributes (n : node) : attrs := let 'MkNode _ a _ _ := n in a.
Definition _children (n : node) : list node := let 'MkNode _ _ c _ := n in c.
Definition _else_tokens (n : node) : list node := let 'MkNode _ _ _ e := n in e.

#[global] Instance kind_eq_dec : EqDecision kind.
Proof. solve_decision. Defined.

(** The class attribute [end_tags]. *)
Definition end_tags (k : kind) : option (list string) :=
  match k with
  | KBlock => Some ["ENDBLOCK"]
  | KIf => Some ["ELIF"; "ELSE"; "ENDIF"]
  | KElif => Some ["ELSE"; "ENDIF"]
  | KElse => Some ["ENDIF"]
  | _ => None
  end.

(** [name in root.end_tags], false when [end_tags] is [None]. *)
Definition in_end_tags (name : string) (k : kind) : bool :=
  match end_tags k with
  | Some tags => bool_decide (name ∈ tags)
  | None => false
  end.

Definition opens_scope (k : kind) : bool :=
  match end_tags k with Some (_ :: _) => true | _ => false end.

(** The setter of the [children] property: [root.children = value].  An
    [If] (and so an [Elif]) keeps [Elif] and [Else] values apart. *)
Definition set_children (root value : node) : node :=
  let 'MkNode k a c e := root in
  match k with
  | KIf | KElif =>
      match cls value with
      | KElif | KElse => MkNode k a c (e ++ [value])
      | _ => MkNode k a (c ++ [value]) e
      end
  | _ => MkNode k a (c ++ [value]) e
  end.

(** ** Tokens and the registry *)

Abbreviation token := (string * attrs)%type.

Definition registry : gmap string kind :=
  list_to_map
    [("TEXT", KText); ("BLOCK", KBlock); ("ENDBLOCK", KEndblock);
     ("CONFIG", KConfig); ("ECHO", KEcho); ("IF", KIf); ("ELIF", KElif);
     ("ELSE", KElse); ("ENDIF", KEndif); ("INCLUDE", KInclude); ("SET", KSet)].

Definition token_factory (name : string) (attributes : attrs) : result node :=
  match registry !! name with
  | Some k => Ok (MkNode k attributes [] [])
  | None => Raise (KeyError name)
  end.

(** ** Parser *)

Module Parser.
Import Py.

Definition start_delimiter : string := "<!--#".
Definition end_delimiter : string := "-->".

Definition nonempty (s : string) : bool :=
  match s with EmptyString => false | String _ _ => true end.

Definition tokenize (expression : string) : result token :=
  let expression := strip expression in
  if negb (contains " " expression) then Ok (upper expression, ANone)
  else
    match split1 expression with
    | [verb; attr_text] =>
        rbind (AttributeParser.parse attr_text) (fun attributes =>
        Ok (upper verb, ADict attributes))
    | _ => Raise ValueError
    end.

(** The generator [lexemize], from the current position on: the tokens it
    yields, in order, and the exception that ends it, if one does.  A
    consumer sees the exception only after it has taken every token
    before it.  One round of the loop takes at least the two delimiters
    off the text, so [fuel] rounds are never used up when [fuel] exceeds
    the length of the text. *)
Fixpoint lexemize_from (fuel : nat) (text : string) : list token * option exn :=
  match fuel with
  | O => ([], None)
  | S fuel' =>
      match index start_delimiter text with
      | None => ((if nonempty text then [("TEXT", AStr text)] else []), None)
      | Some (value, rest) =>
          let before := if nonempty value then [("TEXT", AStr value)] else [] in
          match index end_delimiter rest with
          | None => (before, Some EndMarkerNotFound)
          | Some (value', rest') =>
              let directive :=
                if nonempty value' then
                  match tokenize value' with
                  | Ok t => Ok [t]
                  | Raise ValueError => Raise EndMarkerNotFound
                  | Raise e => Raise e
                  end
                else Ok [] in
              match directive with
              | Raise e => (before, Some e)
              | Ok ts =>
                  let '(more, err) := lexemize_from fuel' rest' in
                  ((before ++ ts ++ more)%list, err)
              end
          end
      end
  end.

Definition lexemize (text : string) : list token * option exn :=
  lexemize_from (S (String.length text)) text.

(** The local function [inner] of [build_ast]: [root] after the tokens it
    took, and the tokens it left.  Each call takes a token, so [fuel]
    calls are never used up when [fuel] exceeds the number of tokens:
    [inner], [build_ast] and [parse] are the builder where the
    interpreter's recursion limit is out of reach; [inner_within],
    [build_ast_within] and [parse_within] below have the limit. *)
Fixpoint inner (fuel : nat) (root : node) (tokens : list token)
  : result (node * list token) :=
  match fuel with
  | O => Raise RecursionError
  | S fuel' =>
      match tokens with
      | [] => Ok (root, [])
      | (name, attributes) :: rest =>
          rbind (token_factory name attributes) (fun node =>
          if opens_scope (cls node) then
            rbind (inner fuel' node rest) (fun '(node', rest') =>
            inner fuel' (set_children root node') rest')
          else if in_end_tags name (cls root) then Ok (root, rest)
          else inner fuel' (set_children root node) rest)
      end
  end.

Definition head : node := MkNode KNode ANone [] [].

(** [build_ast] on what the generator yields. *)
Definition build_ast (tokens : list token * option exn) : result node :=
  let '(toks, err) := tokens in
  match inner (S (length toks)) head toks with
  | Raise e => Raise e
  | Ok (root, _) =>
      match err with
      | Some e => Raise e
      | None => Ok root
      end
  end.

Definition parse (text : string) : result node := build_ast (lexemize text).

(** The builder under the interpreter's recursion limit.  [inner] calls
    itself at every token that opens a scope and returns at an end tag
    only, so the calls are as deep as the scopes that are open; [limit]
    is the number of calls of [inner] inside one another that the
    interpreter has room for, and the call that goes beyond it raises
    [RecursionError].  [fuel] bounds the tokens, as in [inner]. *)
Fixpoint inner_within (limit fuel : nat) (root : node) (tokens : list token) {struct fuel}
  : result (node * list token) :=
  match limit, fuel with
  | O, _ => Raise RecursionError
  | S _, O => Raise RecursionError
  | S limit', S fuel' =>
      match tokens with
      | [] => Ok (root, [])
      | (name, attributes) :: rest =>
          rbind (token_factory name attributes) (fun node =>
          if opens_scope (cls node) then
            rbind (inner_within limit' fuel' node rest) (fun '(node', rest') =>
            inner_within (S limit') fuel' (set_children root node') rest')
          else if in_end_tags name (cls root) then Ok (root, rest)
          else inner_within (S limit') fuel' (set_children root node) rest)
      end
  end.

Definition build_ast_within (limit : nat) (tokens : list token * option exn)
  : result node :=
  let '(toks, err) := tokens in
  match inner_within limit (S (length toks)) head toks with
  | Raise e => Raise e
  | Ok (root, _) =>
      match err with
      | Some e => Raise e
      | None => Ok root
      end
  end.

Definition parse_within (limit : nat) (text : string) : result node :=
  build_ast_within limit (lexemize text).

End Parser.

(** ** Values, the context and the outside world *)

(** The values a context holds and a node's [evaluate] returns: [None], a
    string, a mapping, or the zero-argument function that a [Block] stores,
    which is determined by the children of the block (the context it closes
    over is the one context of the render). *)
Inductive value : Type :=
| VNone
| VStr (s : string)
| VDict (m : gmap string string)
| VCallable (body : list node).

(** Python's truth value. *)
Definition truthy (v : value) : bool :=
  match v with
  | VNone => false
  | VStr s => Parser.nonempty s
  | VDict m => negb (bool_decide (m = ∅))
  | VCallable _ => true
  end.

Inductive request : Type :=
| OpenFile (path : string)
| HttpGet (url : string).

(** The mutable state of a render: the context, and the requests made to
    the file system and the network so far. *)
Record world : Type := World {
  context : gmap string value;
  requests : list request
}.

(** A compiled regular expression, as [re.match] uses it: on a text, no
    match, or a match with its named groups, [None] for a group that took
    no part in the match. *)
Definition matcher : Type := string -> option (list (string * option string)).

(** Computations that read and write the world and may raise.  The world a
    computation leaves is kept when it raises, as a [dict] keeps what was
    written to it before an exception. *)
Definition M (A : Type) : Type := world -> result A * world.

Definition ret {A} (a : A) : M A := fun w => (Ok a, w).
Definition raise {A} (e : exn) : M A := fun w => (Raise e, w).
Definition bind {A B} (m : M A) (k : A -> M B) : M B :=
  fun w =>
    match m w with
    | (Ok a, w') => k a w'
    | (Raise e, w') => (Raise e, w')
    end.
Definition lift {A} (r : result A) : M A := fun w => (r, w).

Declare Scope ssi_scope.
Delimit Scope ssi_scope with ssi.
Notation "x <- m ;; k" := (bind m (fun x => k))
  (at level 100, m at next level, right associativity) : ssi_scope.
Notation "m ;;; k" := (bind m (fun _ => k))
  (at level 100, right associativity) : ssi_scope.
Local Open Scope ssi_scope.

(** [try: body except KeyError: handler] *)
Definition except_KeyError {A} (body handler : M A) : M A :=
  fun w =>
    match body w with
    | (Raise (KeyError _), w') => handler w'
    | r => r
    end.

Definition get_context : M (gmap string value) := fun w => (Ok (context w), w).

(** [context[key] = v] *)
Definition setitem (key : string) (v : value) : M unit :=
  fun w => (Ok tt, World (<[key := v]> (context w)) (requests w)).

(** [context[key]] *)
Definition getitem (key : string) : M value :=
  fun w =>
    match context w !! key with
    | Some v => (Ok v, w)
    | None => (Raise (KeyError key), w)
    end.

(** [context.update(d)] for a list of items [d]. *)
Definition update (items : list (string * value)) : M unit :=
  fun w => (Ok tt, World (foldl (fun m kv => <[kv.1 := kv.2]> m) (context w) items) (requests w)).

Definition record (r : request) : M unit :=
  fun w => (Ok tt, World (context w) (requests w ++ [r])).

(** [self.attributes[key]] *)
Definition attr_getitem (a : attrs) (key : string) : result string :=
  match a with
  | ADict m =>
      match m !! key with
      | Some v => Ok v
      | None => Raise (KeyError key)
      end
  | _ => Raise TypeError
  end.

(** [self.attributes.get(key)] *)
Definition attr_get (a : attrs) (key : string) : result (option string) :=
  match a with
  | ADict m => Ok (m !! key)
  | _ => Raise AttributeError
  end.

(** The truth value of what [attributes.get] returns. *)
Definition given (o : option string) : bool :=
  match o with
  | Some s => Parser.nonempty s
  | None => false
  end.

Definition errmsg_fallback : string :=
  "[an error occurred while processing the directive]".

(** [''.join(filter(None, result))] *)
Fixpoint join (fragments : list value) : result string :=
  match fragments with
  | [] => Ok EmptyString
  | v :: rest =>
      if truthy v then
        match v with
        | VStr s => rbind (join rest) (fun r => Ok (s +:+ r))
        | _ => Raise TypeError
        end
      else join rest
  end.

(** [[token.evaluate(context) for token in tokens]] *)
Fixpoint for_each {A B} (f : A -> M B) (l : list A) : M (list B) :=
  match l with
  | [] => ret []
  | x :: l' => y <- f x ;; ys <- for_each f l' ;; ret (y :: ys)
  end.

Inductive op_func : Type := eq | ne.

Definition apply_op (f : op_func) (same : bool) : bool :=
  match f with eq => same | ne => negb same end.

(** [a == b] for a context value (or [None]) and a string. *)
Definition value_eq_str (v : option value) (s : string) : bool :=
  match v with
  | Some (VStr s') => bool_decide (s' = s)
  | _ => false
  end.

Section Evaluation.

(** The collaborators: the content of a file, the body of the response
    to a GET request ([None] when the call fails), and the regular
    expression engine, which compiles a pattern ([None] when it is not
    a regular expression). *)
Variable file_content : string -> option string.
Variable response_text : string -> option string.
Variable re_compile : string -> option matcher.

Definition _get_operator_func (operator : option string) : result op_func :=
  match operator with
  | Some "=" => Ok eq
  | Some "!=" => Ok ne
  | _ => Raise ExpressionEvaluationError
  end.

(** [match.groupdict({})] as the items that [context.update] writes. *)
Definition groupdict (groups : list (string * option string)) : list (string * value) :=
  map (fun g => (g.1, match g.2 with Some s => VStr s | None => VDict ∅ end)) groups.

(** [Expression.evaluate] *)
Definition Expression_evaluate (tokens : tokens) : M bool :=
  let variable := tok_variable tokens in
  let operator := tok_operator tokens in
  let text := tok_text tokens in
  let regexp := tok_regexp tokens in
  if given regexp then
    ctx <- get_context ;;
    let subject :=
      match variable with
      | Some v => default (VStr EmptyString) (ctx !! v)
      | None => VStr EmptyString
      end in
    match re_compile (default EmptyString regexp) with
    | None => raise RegexError
    | Some pattern =>
        match subject with
        | VStr s =>
            let match_ := pattern s in
            op_func <- lift (_get_operator_func operator) ;;
            let result := apply_op op_func (bool_decide (is_Some match_)) in
            match match_ with
            | Some groups =>
                (if result then update (groupdict groups) else ret tt) ;;;
                ret result
            | None => ret result
            end
        | _ => raise TypeError
        end
    end
  else if given text then
    op_func <- lift (_get_operator_func operator) ;;
    ctx <- get_context ;;
    ret (apply_op op_func
           (value_eq_str (v ← variable; ctx !! v) (default EmptyString text)))
  else if given variable then
    ctx <- get_context ;;
    ret (bool_decide (is_Some (ctx !! default EmptyString variable)))
  else raise ExpressionEvaluationError.

(** [Include._get_file] *)
Definition _get_file (file : string) : M string :=
  record (OpenFile file) ;;;
  match file_content file with
  | Some s => ret (Py.strip s)
  | None => raise (FetchError file)
  end.

(** [Include._get_url] *)
Definition _get_url (url : string) : M string :=
  record (HttpGet url) ;;;
  match response_text url with
  | Some s => ret s
  | None => raise (FetchError url)
  end.

(** [evaluate_tokens], given the [evaluate] of the nodes. *)
Definition evaluate_tokens_with (evaluate : node -> M value) (tokens : list node)
  : M string :=
  result <- for_each evaluate tokens ;;
  lift (join result).

(** What a call of a context value returns: a [Block]'s function
    evaluates the children of the block in the context as it is now. *)
Definition call_or_return (evaluate_tokens : list node -> M string) (v : value)
  : M value :=
  match v with
  | VCallable body => s <- evaluate_tokens body ;; ret (VStr s)
  | _ => ret v
  end.

Definition value_of_attrs (a : attrs) : value :=
  match a with
  | ANone => VNone
  | AStr s => VStr s
  | ADict m => VDict m
  end.

(** The method [evaluate] of every class.  [fuel] bounds the depth of
    the calls; running out of it is Python's [RecursionError]. *)
Fixpoint evaluate (fuel : nat) (self : node) : M value :=
  match fuel with
  | O => raise RecursionError
  | S fuel' =>
      let evaluate_tokens := evaluate_tokens_with (evaluate fuel') in
      let a := attributes self in
      match cls self with
      | KText => ret (value_of_attrs a)
      | KBlock =>
          name <- lift (attr_getitem a "name") ;;
          setitem name (VCallable (_children self)) ;;;
          ret VNone
      | KConfig =>
          match a with
          | ADict m => update (map (fun kv => (kv.1, VStr kv.2)) (map_to_list m)) ;;; ret VNone
          | AStr EmptyString => ret VNone
          | AStr _ => raise ValueError
          | ANone => raise TypeError
          end
      | KEcho =>
          var <- lift (attr_getitem a "var") ;;
          except_KeyError
            (value <- getitem var ;;
             call_or_return evaluate_tokens value)
            (match attr_get a "default" with
             | Ok (Some d) => ret (VStr d)
             | _ =>
                 ctx <- get_context ;;
                 ret (default (VStr errmsg_fallback) (ctx !! "errmsg"))
             end)
      | KIf | KElif =>
          expr <- lift (attr_getitem a "expr") ;;
          expression <- lift (ExpressionParser.parse expr) ;;
          cond <- Expression_evaluate expression ;;
          if cond then s <- evaluate_tokens (_children self) ;; ret (VStr s)
          else
            match _else_tokens self with
            | [] => ret VNone
            | _ :: _ => s <- evaluate_tokens (_else_tokens self) ;; ret (VStr s)
            end
      | KInclude =>
          file <- lift (attr_get a "file") ;;
          url <- lift (attr_get a "virtual") ;;
          if (given file && given url) || negb (given file || given url)
          then raise IncludeDeclarationError
          else
            content <- (if given file then _get_file (default EmptyString file)
                        else ret EmptyString) ;;
            content <- (if given url then _get_url (default EmptyString url)
                        else ret content) ;;
            set_ <- lift (attr_get a "set") ;;
            if given set_ then
              setitem (default EmptyString set_) (VStr content) ;;; ret VNone
            else
              stub <- lift (attr_get a "stub") ;;
              if negb (Parser.nonempty content) && given stub then
                block <- getitem (default EmptyString stub) ;;
                call_or_return evaluate_tokens block
              else ret (VStr content)
      | KSet =>
          var <- lift (attr_getitem a "var") ;;
          value <- lift (attr_getitem a "value") ;;
          setitem var (VStr value) ;;;
          ret VNone
      | KNode | KNoop | KEndblock | KElse | KEndif =>
          s <- evaluate_tokens (_children self) ;; ret (VStr s)
      end
  end.

(** The function [evaluate_tokens] of the module. *)
Definition evaluate_tokens (fuel : nat) (tokens : list node) : M string :=
  evaluate_tokens_with (evaluate fuel) tokens.

(** Rendering: [ast.evaluate(context)] on the root that [parse] built. *)
Definition render (fuel : nat) (text : string) (ctx : gmap string value)
  : result value * world :=
  match Parser.parse text with
  | Ok ast => evaluate fuel ast (World ctx [])
  | Raise e => (Raise e, World ctx [])
  end.

End Evaluation.

(** ** Documents and collaborators used in the examples *)

Module Doc.
Import Py.

(** [k="v"] *)
Definition attr (k v : string) : string := k +:+ "=" +:+ q +:+ v +:+ q.

(** [<!--# body -->] *)
Definition directive (body : string) : string := "<!--# " +:+ body +:+ " -->".

(** An [if] directive that no [endif] follows. *)
Definition if_without_endif : string :=
  directive ("if " +:+ attr "expr" "$name") +:+ "foo".

(** The same directive cut before its end delimiter. *)
Definition if_without_end_delimiter : string :=
  "<!--# if " +:+ attr "expr" "$name" +:+ " ".

(** An [if] whose expression has no [$] in front of the variable. *)
Definition if_bad_expr : string :=
  directive ("if " +:+ attr "expr" "name") +:+ "foo" +:+ directive "endif".

(** A directive whose verb is [text]. *)
Definition text_directive : string := "<!--#text-->".

(** A directive whose verb is not in the registry. *)
Definition unknown_directive : string := "a<!--# foo -->b".

(** An [endif] that closes nothing, between two texts. *)
Definition stray_endif : string := "a<!--# endif -->b".

(** An [if] with an [else], and text after the [endif]. *)
Definition if_else_then_text : string :=
  directive ("if " +:+ attr "expr" "$name") +:+ "foo"
  +:+ directive "else" +:+ "bar"
  +:+ directive "endif" +:+ "tail".

Definition no_source : string -> option string := fun _ => None.

(** A toy engine for the examples: a pattern matches the texts that start
    with it; the group [rest] is what follows, the group [none] takes no
    part in the match. *)
Definition prefix_regex (p : string) : option matcher :=
  Some (fun s =>
          match Py.strip_prefix p s with
          | Some rest => Some [("rest", Some rest); ("none", None)]
          | None => None
          end).

(** A block that writes to the context, echoed twice. *)
Definition block_echoed_twice : string :=
  directive ("block " +:+ attr "name" "n")
  +:+ directive ("echo " +:+ attr "var" "x")
  +:+ directive ("set " +:+ attr "var" "x" +:+ " " +:+ attr "value" "b")
  +:+ directive "endblock"
  +:+ directive ("echo " +:+ attr "var" "n")
  +:+ directive ("echo " +:+ attr "var" "n").

(** A block that reads a variable set after the block. *)
Definition block_reads_later_write : string :=
  directive ("block " +:+ attr "name" "n")
  +:+ directive ("echo " +:+ attr "var" "x")
  +:+ directive "endblock"
  +:+ directive ("set " +:+ attr "var" "x" +:+ " " +:+ attr "value" "late")
  +:+ directive ("echo " +:+ attr "var" "n").


(** An [include] with an empty [file] and an address. *)
Definition include_empty_file : string :=
  directive ("include " +:+ attr "file" "" +:+ " " +:+ attr "virtual" "/b").

(** The chain of the tests: [if], [elif], [else]. *)
Definition if_elif_else : string :=
  directive ("if " +:+ attr "expr" "$name = foo") +:+ "foo"
  +:+ directive ("elif " +:+ attr "expr" "$name = bar") +:+ "bar"
  +:+ directive "else" +:+ "baz"
  +:+ directive "endif".
Definition no_regex : string -> option matcher := fun _ => None.

End Doc.

(** ** Notions used in the statements *)

(** An [include] declares [key] when the attribute is there and is not
    the empty string, which is how [Include.evaluate] tests it. *)
Definition declares (a : attrs) (key : string) : bool :=
  match a with
  | ADict m => given (m !! key)
  | _ => false
  end.

(** The exception of an [include] that declares both sources or none: the
    one it raises itself, or the one of [attributes.get] when the
    directive was written without any attribute. *)
Definition include_failure (a : attrs) : exn :=
  match a with
  | ADict _ => IncludeDeclarationError
  | _ => AttributeError
  end.

Definition is_KeyError (e : exn) : bool :=
  match e with KeyError _ => true | _ => false end.

(** The context after [context.update(items)]. *)
Definition updated (items : list (string * value)) (w : world) : world :=
  World (foldl (fun m kv => <[kv.1 := kv.2]> m) (context w) items) (requests w).

(** What the handler of [Echo.evaluate] returns. *)
Definition echo_fallback (m : gmap string string) (w : world) : value :=
  match m !! "default" with
  | Some d => VStr d
  | None => default (VStr errmsg_fallback) (context w !! "errmsg")
  end.

(** [inner] with fuel to spare. *)
Definition inner_all (root : node) (tokens : list token) : result (node * list token) :=
  Parser.inner (S (length tokens)) root tokens.

(** A name that the registry knows. *)
Definition registered (t : token) : Prop := is_Some (registry !! t.1).

(** A token whose node opens a scope, and the number of these tokens in
    a sequence: the calls of [inner] are never deeper than one more than
    this number. *)
Definition opens (t : token) : bool :=
  match registry !! t.1 with
  | Some k => opens_scope k
  | None => false
  end.

Fixpoint opened (tokens : list token) : nat :=
  match tokens with
  | [] => 0
  | t :: rest => (if opens t then 1 else 0) + opened rest
  end.

(** The token sequences that open no scope without closing it, when they
    are read under a root of class [k], and the nodes that they add to
    that root: a token that opens no scope and is not an end tag of [k]
    adds its node; a token that opens a scope adds its node once the
    tokens of the scope, closed in the same sense, and an end tag of the
    scope have been read. *)
Inductive closed_seq (k : kind) : list token -> list node -> Prop :=
| closed_nil : closed_seq k [] []
| closed_leaf name a k' ts ns :
    registry !! name = Some k' ->
    opens_scope k' = false ->
    in_end_tags name k = false ->
    closed_seq k ts ns ->
    closed_seq k ((name, a) :: ts) (MkNode k' a [] [] :: ns)
| closed_scope name a k' body bns cname ca kc ts ns :
    registry !! name = Some k' ->
    opens_scope k' = true ->
    closed_seq k' body bns ->
    registry !! cname = Some kc ->
    opens_scope kc = false ->
    in_end_tags cname k' = true ->
    closed_seq k ts ns ->
    closed_seq k ((name, a) :: body ++ (cname, ca) :: ts)
      (foldl set_children (MkNode k' a [] []) bns :: ns).

(** The ten names of directives, and the keys of the registry. *)
Definition directive_names : list string :=
  ["BLOCK"; "ENDBLOCK"; "CONFIG"; "ECHO"; "IF"; "ELIF"; "ELSE"; "ENDIF"; "INCLUDE"; "SET"].

Definition registry_keys : list string := "TEXT" :: directive_names.

(** An [if] chain as [build_ast] nests it: each [Elif], and the [Else],
    is the one alternative of the node before it. *)
Fixpoint alternatives (elifs : list (gmap string string * list node))
    (else_body : option (list node)) : list node :=
  match elifs with
  | [] =>
      match else_body with
      | Some body => [MkNode KElse ANone body []]
      | None => []
      end
  | (m, body) :: rest => [MkNode KElif (ADict m) body (alternatives rest else_body)]
  end.

Definition chain (k : kind) (first : gmap string string * list node)
    (elifs : list (gmap string string * list node)) (else_body : option (list node))
  : node :=
  MkNode k (ADict first.1) first.2 (alternatives elifs else_body).








Section Selection.
Variable re_compile : string -> option matcher.

(** The condition of an [if] or [elif] with attributes [m]. *)
Definition condition (m : gmap string string) : M bool :=
  (expr <- lift (attr_getitem (ADict m) "expr") ;;
   expression <- lift (ExpressionParser.parse expr) ;;
   Expression_evaluate re_compile expression)%ssi.


End Selection.

(** Every character of [s] satisfies [p]. *)
Fixpoint all_chars (p : ascii -> bool) (s : string) : bool :=
  match s with
  | EmptyString => true
  | String c s' => p c && all_chars p s'
  end.

Definition starts_with (p : ascii -> bool) (s : string) : bool :=
  match s with
  | EmptyString => false
  | String c _ => p c
  end.

Definition not_tab (c : ascii) : bool := negb (Py.ascii_eqb c Py.TAB).


(** A name of the attribute grammar. *)
Definition is_name (k : string) : bool :=
  Parser.nonempty k && all_chars AttributeParser.name_char k.


(** The attributes after the first, each after a blank, then [tail]. *)
Fixpoint more_attrs (pairs : list (string * string)) (tail : string) : string :=
  match pairs with
  | [] => tail
  | kv :: rest => " " +:+ Doc.attr kv.1 kv.2 +:+ more_attrs rest tail
  end.

(** The well-formed attribute string of a list of attributes, with [tail]
    after it. *)
Definition attr_text (first : string * string) (pairs : list (string * string))
    (tail : string) : string :=
  Doc.attr first.1 first.2 +:+ more_attrs pairs tail.

(** The value of the last occurrence of [k]. *)
Fixpoint last_value (k : string) (pairs : list (string * string)) : option string :=
  match pairs with
  | [] => None
  | (k', v) :: rest =>
      match last_value k rest with
      | Some v' => Some v'
      | None => if decide (k' = k) then Some v else None
      end
  end.

(** A variable name of the expression grammar. *)
Definition word_char (c : ascii) : bool := Py.islower c || Py.ascii_eqb c "_".

Definition is_word (s : string) : bool := Parser.nonempty s && all_chars word_char s.

(** The characters of the body of a regular expression: no slash, no
    line break, no tab. *)
Definition regexp_char (c : ascii) : bool :=
  negb (Py.ascii_eqb c "/" || Py.ascii_eqb c Py.LF || Py.ascii_eqb c Py.CR
        || Py.ascii_eqb c Py.TAB).

(** The text of an expression with a regular expression. *)
Definition regex_form (var op regexp : string) : string :=
  "$" +:+ var +:+ " " +:+ op +:+ " /" +:+ regexp +:+ "/".

(** The attribute that a directive reads with [self.attributes[...]]
    before anything else. *)
Definition required_attribute (k : kind) : option string :=
  match k with
  | KBlock => Some "name"
  | KEcho | KSet => Some "var"
  | KIf | KElif => Some "expr"
  | _ => None
  end.

Definition is_callable (v : value) : bool :=
  match v with VCallable _ => true | _ => false end.

(** The world after one more request. *)
Definition requested (r : request) (w : world) : world :=
  World (context w) (requests w ++ [r]).

(** The world after [context[key] = v]. *)
Definition assigned (key : string) (v : value) (w : world) : world :=
  World (<[key := v]> (context w)) (requests w).

(** A file system and a network for the examples: the file of the tests,
    an empty file, and one address. *)
Definition example_files (path : string) : option string :=
  if String.eqb path "include.txt" then Some ("foo" +:+ String Py.LF EmptyString)
  else if String.eqb path "empty.txt" then Some EmptyString
  else None.

Definition example_network (url : string) : option string :=
  if String.eqb url "/foo" then Some (" foo" +:+ String Py.LF EmptyString) else None.

(** The characters of a quoted text of the expression grammar. *)
Definition text_char (c : ascii) : bool :=
  negb (Py.ascii_eqb c "'" || Py.ascii_eqb c Py.LF || Py.ascii_eqb c Py.CR
        || Py.ascii_eqb c Py.TAB).

(** The text of a comparison with a quoted text. *)
Definition text_form (var op text : string) : string :=
  "$" +:+ var +:+ " " +:+ op +:+ " '" +:+ text +:+ "'".

(** What the expression grammar can return: a variable that is a word,
    and an operator, [=] or [!=], whenever there is a text or a regular
    expression. *)
Definition well_shaped (t : tokens) : Prop :=
  (∃ v, tok_variable t = Some v ∧ is_word v = true)
  ∧ (tok_operator t = None ∨ tok_operator t = Some "=" ∨ tok_operator t = Some "!=")
  ∧ (tok_operator t = None → tok_text t = None ∧ tok_regexp t = None).

Definition not_lower (c : ascii) : bool := negb (Py.islower c).
Definition not_space (c : ascii) : bool := negb (Py.isspace c).
Definition not_backslash (c : ascii) : bool := negb (Py.ascii_eqb c Py.backslash).
Definition not_lt (c : ascii) : bool := negb (Py.ascii_eqb c "<").
Definition not_gt (c : ascii) : bool := negb (Py.ascii_eqb c ">").

(** The [TEXT] token of a text, none for the empty text. *)
Definition text_token (s : string) : list token :=
  if Parser.nonempty s then [("TEXT", AStr s)] else [].

(** [m'] gives what [m] gives, whenever [m] does not exhaust the
    recursion bound. *)
Definition extends {A} (m m' : M A) : Prop :=
  ∀ w r w', m w = (r, w') → r ≠ Raise RecursionError → m' w = (r, w').

(** * Properties *)

(** ** Monad laws used below *)

Lemma bind_ret_l {A B} (a : A) (k : A -> M B) w : bind (ret a) k w = k a w.
Proof. reflexivity. Qed.

Lemma bind_lift_ok {A B} (a : A) (k : A -> M B) w : bind (lift (Ok a)) k w = k a w.
Proof. reflexivity. Qed.

Lemma bind_lift_raise {A B} (e : exn) (k : A -> M B) w :
  bind (lift (Raise e)) k w = (Raise e, w).
Proof. reflexivity. Qed.

(** ** C1: an [if] without [endif] *)

(** C1, as stated, fails: parsing the document
    [<!--# if expr=(quote)$name(quote) -->foo] does not raise the end-marker failure; it
    returns a tree. *)
Lemma C1_parse_if_without_endif_succeeds :
  Parser.parse Doc.if_without_endif ≠ Raise EndMarkerNotFound
  ∧ is_ok (Parser.parse Doc.if_without_endif) = true.
Proof. split; [vm_compute; discriminate | vm_compute; reflexivity]. Qed.

(** ** C2: when the grammar of [expr] is checked *)

(** C2, as stated, fails: the document [if_bad_expr] holds an [if] whose
    [expr] the expression grammar rejects, and [Parser.parse] returns a
    tree for it; the grammar error comes when the tree is evaluated. *)
Lemma C2_bad_expr_parses :
  ExpressionParser.parse "name" = Raise ParseException
  ∧ Parser.parse Doc.if_bad_expr
    = Ok (MkNode KNode ANone
            [MkNode KIf (ADict {["expr" := "name"]}) [MkNode KText (AStr "foo") [] []] []]
            [])
  ∧ (render Doc.no_source Doc.no_source Doc.no_regex 3 Doc.if_bad_expr ∅).1
    = Raise ParseException.
Proof. repeat split; vm_compute; reflexivity. Qed.

Section ExprGrammar.
Variables (file_content response_text : string -> option string).
Variable re_compile : string -> option matcher.
Local Abbreviation eval := (evaluate file_content response_text re_compile).

(** C2, amended: for every [If] or [Elif] node whose [expr] attribute
    does not match the expression grammar, the registry builds the node
    without looking at the attribute, and the grammar error is raised when
    the node is evaluated, before the context is read or written. *)
Theorem C2_expr_grammar_error_at_evaluation
    (fuel : nat) (k : kind) (m : gmap string string) (e : string) (x : exn)
    (c el : list node) (w : world) :
  k = KIf ∨ k = KElif →
  m !! "expr" = Some e →
  ExpressionParser.parse e = Raise x →
  (∀ name, registry !! name = Some k →
     token_factory name (ADict m) = Ok (MkNode k (ADict m) [] []))
  ∧ eval (S fuel) (MkNode k (ADict m) c el) w = (Raise x, w).
Proof.
  intros Hk Hm He. split.
  - intros name Hname. unfold token_factory. by rewrite Hname.
  - destruct Hk as [-> | ->]; cbn [evaluate cls attributes attr_getitem];
      rewrite Hm, bind_lift_ok, He; reflexivity.
Qed.

End ExprGrammar.

Lemma C2_expr_grammar_error_at_evaluation_witness :
  (KIf = KIf ∨ KIf = KElif)
  ∧ ({["expr" := "name"]} : gmap string string) !! "expr" = Some "name"
  ∧ ExpressionParser.parse "name" = Raise ParseException
  ∧ evaluate Doc.no_source Doc.no_source Doc.no_regex 1
      (MkNode KIf (ADict {["expr" := "name"]}) [] []) (World ∅ [])
    = (Raise ParseException, World ∅ []).
Proof.
  split; [by left |]. split; [reflexivity |]. split; [reflexivity |].
  apply (C2_expr_grammar_error_at_evaluation
           Doc.no_source Doc.no_source Doc.no_regex 0 KIf {["expr" := "name"]} "name");
    [by left | reflexivity | reflexivity].
Defined.

(** ** C4: [echo] of a variable that is not set *)

Section EchoMissing.
Variables (file_content response_text : string -> option string).
Variable re_compile : string -> option matcher.
Local Abbreviation eval := (evaluate file_content response_text re_compile).

(** C4: an [echo] node whose [var] is not a key of the context returns,
    without raising and without changing the world, its [default]
    attribute when it has one, otherwise the value of [errmsg] in the
    context when there is one, otherwise the fixed message. *)
Theorem C4_echo_missing_variable
    (fuel : nat) (m : gmap string string) (var : string)
    (c el : list node) (w : world) :
  m !! "var" = Some var →
  context w !! var = None →
  eval (S fuel) (MkNode KEcho (ADict m) c el) w
  = (Ok match m !! "default" with
        | Some d => VStr d
        | None =>
            match context w !! "errmsg" with
            | Some v => v
            | None => VStr "[an error occurred while processing the directive]"
            end
        end, w).
Proof.
  intros Hvar Hctx.
  cbn [evaluate cls attributes attr_getitem attr_get].
  rewrite Hvar, bind_lift_ok.
  unfold except_KeyError, bind, getitem. rewrite Hctx.
  destruct (m !! "default"); reflexivity.
Qed.

End EchoMissing.

Lemma C4_echo_missing_variable_witness :
  ({["var" := "foo"]} : gmap string string) !! "var" = Some "foo"
  ∧ context (World ∅ []) !! "foo" = None
  ∧ evaluate Doc.no_source Doc.no_source Doc.no_regex 1
      (MkNode KEcho (ADict {["var" := "foo"]}) [] []) (World ∅ [])
    = (Ok (VStr "[an error occurred while processing the directive]"), World ∅ []).
Proof.
  split; [reflexivity |]. split; [reflexivity |].
  etrans;
    [apply (C4_echo_missing_variable
              Doc.no_source Doc.no_source Doc.no_regex 0 {["var" := "foo"]} "foo" [] []
              (World ∅ [])); reflexivity
    | vm_compute; reflexivity].
Defined.

(** ** The driver [evaluate_tokens] *)

Lemma for_each_app {A B} (f : A -> M B) (l1 l2 : list A) (w : world) :
  for_each f (l1 ++ l2)%list w
  = match for_each f l1 w with
    | (Ok ys, w1) =>
        match for_each f l2 w1 with
        | (Ok zs, w2) => (Ok (ys ++ zs)%list, w2)
        | (Raise e, w2) => (Raise e, w2)
        end
    | (Raise e, w1) => (Raise e, w1)
    end.
Proof.
  revert w. induction l1 as [| x l1 IH]; intros w.
  - cbn. destruct (for_each f l2 w) as [[zs | e] w2]; reflexivity.
  - cbn [for_each app]. unfold bind. destruct (f x w) as [[y | e] w1]; [| reflexivity].
    rewrite IH.
    destruct (for_each f l1 w1) as [[ys | e] w2]; [| reflexivity].
    unfold ret. destruct (for_each f l2 w2) as [[zs | e] w3]; reflexivity.
Qed.

(** A node that raises makes the driver raise the same exception, in the
    world the node left; the nodes after it are not evaluated. *)
Lemma evaluate_tokens_with_raise (ev : node -> M value) (pre post : list node)
    (n : node) (vs : list value) (e : exn) (w0 w w' : world) :
  for_each ev pre w0 = (Ok vs, w) →
  ev n w = (Raise e, w') →
  evaluate_tokens_with ev (pre ++ n :: post) w0 = (Raise e, w').
Proof.
  intros Hpre Hn. unfold evaluate_tokens_with, bind.
  rewrite for_each_app, Hpre. cbn. unfold bind at 1. by rewrite Hn.
Qed.

(** A fragment that is [None] adds nothing to what the driver returns. *)
Lemma evaluate_tokens_with_none (ev : node -> M value) (n : node) (rest : list node)
    (w w1 : world) :
  ev n w = (Ok VNone, w1) →
  evaluate_tokens_with ev (n :: rest) w = evaluate_tokens_with ev rest w1.
Proof.
  intros Hn. unfold evaluate_tokens_with, bind. cbn. unfold bind at 1. rewrite Hn.
  unfold bind at 1. destruct (for_each ev rest w1) as [[vs | e] w2]; reflexivity.
Qed.

(** ** The equations of [evaluate] *)

Section Equations.
Variables (file_content response_text : string -> option string).
Variable re_compile : string -> option matcher.
Local Abbreviation eval := (evaluate file_content response_text re_compile).
Local Abbreviation eval_tokens :=
  (evaluate_tokens file_content response_text re_compile).

Lemma evaluate_children (fuel : nat) (k : kind) (a : attrs) (c el : list node) :
  k ∈ [KNode; KNoop; KEndblock; KElse; KEndif] →
  eval (S fuel) (MkNode k a c el) = (s <- eval_tokens fuel c ;; ret (VStr s)).
Proof.
  intros Hk. repeat (apply elem_of_cons in Hk as [-> | Hk]); try reflexivity.
  by apply elem_of_nil in Hk.
Qed.

Lemma evaluate_Block (fuel : nat) (a : attrs) (c el : list node) :
  eval (S fuel) (MkNode KBlock a c el)
  = (name <- lift (attr_getitem a "name") ;; setitem name (VCallable c) ;;; ret VNone).
Proof. reflexivity. Qed.

Lemma evaluate_Echo (fuel : nat) (a : attrs) (c el : list node) :
  eval (S fuel) (MkNode KEcho a c el)
  = (var <- lift (attr_getitem a "var") ;;
     except_KeyError
       (value <- getitem var ;; call_or_return (eval_tokens fuel) value)
       (match attr_get a "default" with
        | Ok (Some d) => ret (VStr d)
        | _ => ctx <- get_context ;;
               ret (default (VStr errmsg_fallback) (ctx !! "errmsg"))
        end)).
Proof. reflexivity. Qed.

Lemma evaluate_If (fuel : nat) (k : kind) (a : attrs) (c el : list node) :
  k = KIf ∨ k = KElif →
  eval (S fuel) (MkNode k a c el)
  = (expr <- lift (attr_getitem a "expr") ;;
     expression <- lift (ExpressionParser.parse expr) ;;
     cond <- Expression_evaluate re_compile expression ;;
     if cond then s <- eval_tokens fuel c ;; ret (VStr s)
     else match el with
          | [] => ret VNone
          | _ :: _ => s <- eval_tokens fuel el ;; ret (VStr s)
          end).
Proof. intros [-> | ->]; reflexivity. Qed.

Lemma evaluate_Include (fuel : nat) (a : attrs) (c el : list node) :
  eval (S fuel) (MkNode KInclude a c el)
  = (file <- lift (attr_get a "file") ;;
     url <- lift (attr_get a "virtual") ;;
     if (given file && given url) || negb (given file || given url)
     then raise IncludeDeclarationError
     else
       content <- (if given file then _get_file file_content (default EmptyString file)
                   else ret EmptyString) ;;
       content <- (if given url then _get_url response_text (default EmptyString url)
                   else ret content) ;;
       set_ <- lift (attr_get a "set") ;;
       if given set_ then
         setitem (default EmptyString set_) (VStr content) ;;; ret VNone
       else
         stub <- lift (attr_get a "stub") ;;
         if negb (Parser.nonempty content) && given stub then
           block <- getitem (default EmptyString stub) ;;
           call_or_return (eval_tokens fuel) block
         else ret (VStr content)).
Proof. reflexivity. Qed.

End Equations.

(** ** C7: an [include] that declares both sources, or none *)

(** C7, as stated, fails: the directive
    [<!--# include file=(quote)(quote) virtual=(quote)/b(quote) -->] specifies both
    attributes, and its evaluation fetches the address and returns the
    response instead of raising. *)
Lemma C7_include_empty_file_is_fetched :
  Parser.parse Doc.include_empty_file
  = Ok (MkNode KNode ANone
          [MkNode KInclude (ADict {["file" := ""; "virtual" := "/b"]}) [] []] [])
  ∧ render Doc.no_source (fun _ => Some "body") Doc.no_regex 2 Doc.include_empty_file ∅
    = (Ok (VStr "body"), World ∅ [HttpGet "/b"]).
Proof. split; vm_compute; reflexivity. Qed.

Section IncludeDeclaration.
Variables (file_content response_text : string -> option string).
Variable re_compile : string -> option matcher.
Local Abbreviation eval := (evaluate file_content response_text re_compile).

Lemma include_misdeclared (fuel : nat) (a : attrs) (c el : list node) (w : world) :
  declares a "file" = declares a "virtual" →
  eval (S fuel) (MkNode KInclude a c el) w = (Raise (include_failure a), w).
Proof.
  intros H. rewrite evaluate_Include.
  destruct a as [| s | m]; try reflexivity.
  cbn in *. rewrite H.
  destruct (given (m !! "virtual")); reflexivity.
Qed.

(** C7, amended: an [include] node whose [file] and [virtual] are both
    given and not empty, or both missing or empty, raises when it is
    evaluated, leaving the world as it was: nothing was fetched and the
    context was not written.  The exception is not a [KeyError], the only
    kind that the program catches; the driver passes it on, without
    evaluating the nodes that follow. *)
Theorem C7_include_declaration
    (fuel : nat) (a : attrs) (c el : list node) (w : world) :
  declares a "file" = declares a "virtual" →
  let include := MkNode KInclude a c el in
  eval (S fuel) include w = (Raise (include_failure a), w)
  ∧ is_KeyError (include_failure a) = false
  ∧ (∀ handler, except_KeyError (eval (S fuel) include) handler w
                = (Raise (include_failure a), w))
  ∧ (∀ pre post vs w0,
       for_each (eval (S fuel)) pre w0 = (Ok vs, w) →
       evaluate_tokens file_content response_text re_compile (S fuel)
         (pre ++ include :: post) w0
       = (Raise (include_failure a), w))
  ∧ (∀ k a' pre post vs w0,
       k ∈ [KNode; KNoop; KEndblock; KElse; KEndif] →
       for_each (eval (S fuel)) pre w0 = (Ok vs, w) →
       eval (S (S fuel)) (MkNode k a' (pre ++ include :: post) []) w0
       = (Raise (include_failure a), w)).
Proof.
  intros H include. subst include.
  pose proof (include_misdeclared fuel a c el w H) as Hinc.
  assert (Hk : is_KeyError (include_failure a) = false) by (by destruct a).
  split; [exact Hinc |]. split; [exact Hk |]. split; [| split].
  - intros handler. unfold except_KeyError. rewrite Hinc.
    by destruct a.
  - intros pre post vs w0 Hpre.
    by apply evaluate_tokens_with_raise with (vs := vs) (w := w).
  - intros k a' pre post vs w0 Hk' Hpre.
    assert (Hdrv : evaluate_tokens_with (eval (S fuel))
                     (pre ++ MkNode KInclude a c el :: post) w0
                   = (Raise (include_failure a), w))
      by (by apply evaluate_tokens_with_raise with (vs := vs) (w := w)).
    rewrite evaluate_children by done. unfold bind, evaluate_tokens. by rewrite Hdrv.
Qed.

End IncludeDeclaration.

Lemma C7_include_declaration_witness :
  declares (ADict {["file" := "a.txt"; "virtual" := "/b"]}) "file"
  = declares (ADict {["file" := "a.txt"; "virtual" := "/b"]}) "virtual"
  ∧ evaluate Doc.no_source Doc.no_source Doc.no_regex 1
      (MkNode KInclude (ADict {["file" := "a.txt"; "virtual" := "/b"]}) [] [])
      (World ∅ [])
    = (Raise IncludeDeclarationError, World ∅ []).
Proof.
  split; [reflexivity |].
  apply (C7_include_declaration Doc.no_source Doc.no_source Doc.no_regex 0
           (ADict {["file" := "a.txt"; "virtual" := "/b"]}) [] [] (World ∅ [])).
  reflexivity.
Defined.

(** ** Strings *)

Lemma append_cons (c : ascii) (a b : string) : String c a +:+ b = String c (a +:+ b).
Proof. reflexivity. Qed.

Lemma append_nil_l (s : string) : EmptyString +:+ s = s.
Proof. reflexivity. Qed.

Lemma append_nil_r (s : string) : s +:+ EmptyString = s.
Proof. induction s as [| c s IH]; [reflexivity |]. by rewrite append_cons, IH. Qed.

Lemma append_assoc (a b c : string) : (a +:+ b) +:+ c = a +:+ b +:+ c.
Proof. induction a as [| x a IH]; [reflexivity |]. by rewrite !append_cons, IH. Qed.

Lemma length_append (a b : string) :
  String.length (a +:+ b) = String.length a + String.length b.
Proof.
  induction a as [| x a IH]; [reflexivity |].
  rewrite append_cons. cbn [String.length]. by rewrite IH.
Qed.

Lemma nonempty_false (s : string) : Parser.nonempty s = false → s = EmptyString.
Proof. by destruct s. Qed.

(** Joining string fragments concatenates them: an empty one is dropped,
    which changes nothing. *)
Lemma join_VStr (s : string) (rest : list value) :
  join (VStr s :: rest) = rbind (join rest) (fun r => Ok (s +:+ r)).
Proof.
  cbn [join truthy]. destruct s as [| c s]; [| reflexivity].
  cbn [Parser.nonempty]. by destruct (join rest).
Qed.

(** ** C3: a [block] is evaluated when it is invoked *)

Section BlockLazy.
Variables (file_content response_text : string -> option string).
Variable re_compile : string -> option matcher.
Local Abbreviation eval := (evaluate file_content response_text re_compile).
Local Abbreviation eval_tokens :=
  (evaluate_tokens file_content response_text re_compile).

(** An [echo] of a name bound to a block's function evaluates the children
    of the block in the world of the call; a [KeyError] raised in there is
    caught by the [echo] like that of a missing variable. *)
Lemma echo_invokes_block (fuel : nat) (me : gmap string string) (name : string)
    (body c el : list node) (w : world) :
  me !! "var" = Some name →
  context w !! name = Some (VCallable body) →
  eval (S fuel) (MkNode KEcho (ADict me) c el) w
  = match eval_tokens fuel body w with
    | (Ok s, w') => (Ok (VStr s), w')
    | (Raise (KeyError _), w') => (Ok (echo_fallback me w'), w')
    | (Raise e, w') => (Raise e, w')
    end.
Proof.
  intros Hvar Hctx. rewrite evaluate_Echo. cbn [attr_getitem attr_get].
  rewrite Hvar, bind_lift_ok.
  unfold except_KeyError, bind at 1, getitem. rewrite Hctx.
  cbn [call_or_return]. unfold bind.
  destruct (eval_tokens fuel body w) as [[s | e] w']; [reflexivity |].
  destruct e; try reflexivity.
  unfold echo_fallback. destruct (me !! "default"); reflexivity.
Qed.

(** C3: evaluating a [block] node returns [None] and only binds its name,
    in the context, to the function of its children, so it adds nothing to
    the output of the driver.  An [echo] of the name, or an [include]
    whose content is empty and whose [stub] is the name, evaluates the
    children in the world as it is at the call, whatever was written since
    the block was evaluated, and leaves the world that the children left.
    Two calls evaluate the children twice, the second in the world left by
    the first. *)
Theorem C3_block_is_lazy
    (fuel : nat) (m : gmap string string) (name : string) (body el : list node)
    (w : world) :
  m !! "name" = Some name →
  let block := MkNode KBlock (ADict m) body el in
  let installed := World (<[name := VCallable body]> (context w)) (requests w) in
  eval (S fuel) block w = (Ok VNone, installed)
  ∧ (∀ rest, eval_tokens (S fuel) (block :: rest) w = eval_tokens (S fuel) rest installed)
  ∧ (∀ me c' el' w',
       me !! "var" = Some name →
       context w' !! name = Some (VCallable body) →
       eval (S fuel) (MkNode KEcho (ADict me) c' el') w'
       = match eval_tokens fuel body w' with
         | (Ok s, w'') => (Ok (VStr s), w'')
         | (Raise (KeyError _), w'') => (Ok (echo_fallback me w''), w'')
         | (Raise e, w'') => (Raise e, w'')
         end)
  ∧ (∀ mi c' el' w' file raw,
       mi !! "file" = Some file → file ≠ EmptyString →
       given (mi !! "virtual") = false →
       given (mi !! "set") = false →
       mi !! "stub" = Some name → name ≠ EmptyString →
       file_content file = Some raw → Py.strip raw = EmptyString →
       context w' !! name = Some (VCallable body) →
       eval (S fuel) (MkNode KInclude (ADict mi) c' el') w'
       = match eval_tokens fuel body (World (context w') (requests w' ++ [OpenFile file])) with
         | (Ok s, w'') => (Ok (VStr s), w'')
         | (Raise e, w'') => (Raise e, w'')
         end)
  ∧ (∀ me c' el' w' s1 w1 s2 w2,
       me !! "var" = Some name →
       context w' !! name = Some (VCallable body) →
       eval_tokens fuel body w' = (Ok s1, w1) →
       context w1 !! name = Some (VCallable body) →
       eval_tokens fuel body w1 = (Ok s2, w2) →
       let echo := MkNode KEcho (ADict me) c' el' in
       eval_tokens (S fuel) [echo; echo] w' = (Ok (s1 +:+ s2), w2)).
Proof.
  intros Hname block installed. subst block installed.
  assert (Hblock : eval (S fuel) (MkNode KBlock (ADict m) body el) w
                   = (Ok VNone, World (<[name := VCallable body]> (context w)) (requests w))).
  { rewrite evaluate_Block. cbn [attr_getitem]. by rewrite Hname. }
  split; [exact Hblock |]. split; [| split; [| split]].
  - intros rest. by apply evaluate_tokens_with_none.
  - intros me c' el' w' Hvar Hctx. exact (echo_invokes_block fuel me name body c' el' w' Hvar Hctx).
  - intros mi c' el' w' file raw Hfile Hne Hurl Hset Hstub Hname' Hraw Hstrip Hctx.
    rewrite evaluate_Include. cbn [attr_get]. rewrite !bind_lift_ok.
    assert (Hgf : given (mi !! "file") = true) by (rewrite Hfile; by destruct file).
    rewrite Hgf, Hurl. cbn [andb orb negb].
    rewrite Hfile. cbn [default from_option].
    assert (Hgs : given (Some name) = true) by (by destruct name).
    unfold _get_file, bind, record, ret, lift, getitem, id.
    rewrite Hraw, Hstrip, Hset, Hstub, Hgs.
    cbn [Parser.nonempty negb andb default from_option context id]. rewrite Hctx.
    cbn [call_or_return]. unfold bind, ret.
    destruct (eval_tokens fuel body _) as [[s | e] w'']; reflexivity.
  - intros me c' el' w' s1 w1 s2 w2 Hvar Hctx H1 Hctx1 H2 echo. subst echo.
    unfold evaluate_tokens, evaluate_tokens_with. cbn [for_each]. unfold bind.
    rewrite (echo_invokes_block fuel me name body c' el' w' Hvar Hctx), H1.
    rewrite (echo_invokes_block fuel me name body c' el' w1 Hvar Hctx1), H2.
    unfold ret, lift. rewrite !join_VStr. cbn [join rbind].
    by rewrite append_nil_r.
Qed.

End BlockLazy.

Lemma C3_block_is_lazy_witness :
  ({["name" := "n"]} : gmap string string) !! "name" = Some "n"
  ∧ evaluate Doc.no_source Doc.no_source Doc.no_regex 1
      (MkNode KBlock (ADict {["name" := "n"]}) [MkNode KText (AStr "foo") [] []] [])
      (World ∅ [])
    = (Ok VNone,
       World (<["n" := VCallable [MkNode KText (AStr "foo") [] []]]> (context (World ∅ [])))
         (requests (World ∅ []))).
Proof.
  split; [reflexivity |].
  exact (proj1 (C3_block_is_lazy Doc.no_source Doc.no_source Doc.no_regex 0
                  {["name" := "n"]} "n" [MkNode KText (AStr "foo") [] []] []
                  (World ∅ []) eq_refl)).
Defined.

(** A block whose children write to the context gives another output the
    second time it is echoed, and a block reads what was written after it
    was evaluated. *)
Example block_is_evaluated_at_each_call :
  (render Doc.no_source Doc.no_source Doc.no_regex 6 Doc.block_echoed_twice
     {["x" := VStr "a"]}).1 = Ok (VStr "ab")
  ∧ (render Doc.no_source Doc.no_source Doc.no_regex 6 Doc.block_reads_later_write ∅).1
    = Ok (VStr "late").
Proof. split; vm_compute; reflexivity. Qed.

(** ** The tree builder *)

Lemma inner_cons (f : nat) (root : node) (name : string) (a : attrs) (rest : list token) :
  Parser.inner (S f) root ((name, a) :: rest)
  = match registry !! name with
    | None => Raise (KeyError name)
    | Some k =>
        if opens_scope k then
          rbind (Parser.inner f (MkNode k a [] []) rest) (fun '(node', rest') =>
          Parser.inner f (set_children root node') rest')
        else if in_end_tags name (cls root) then Ok (root, rest)
        else Parser.inner f (set_children root (MkNode k a [] [])) rest
    end.
Proof. cbn [Parser.inner]. unfold token_factory. by destruct (registry !! name). Qed.

Lemma cls_set_children (root value : node) : cls (set_children root value) = cls root.
Proof. destruct root as [k a c e]. destruct k; try reflexivity; cbn; by destruct (cls value). Qed.

Lemma cls_foldl_set_children (root : node) (ns : list node) :
  cls (foldl set_children root ns) = cls root.
Proof.
  revert root. induction ns as [| n ns IH]; intros root; [reflexivity |].
  cbn. by rewrite IH, cls_set_children.
Qed.

(** [inner] leaves a part of the tokens it was given. *)
Lemma inner_rest_length (f : nat) (root : node) (ts : list token) (r : node)
    (rest : list token) :
  Parser.inner f root ts = Ok (r, rest) → length rest ≤ length ts.
Proof.
  revert root ts r rest. induction f as [| f IH]; intros root ts r rest H; [discriminate |].
  destruct ts as [| [name a] ts].
  - cbn in H. inversion H. done.
  - rewrite inner_cons in H. destruct (registry !! name) as [k |]; [| discriminate].
    destruct (opens_scope k).
    + destruct (Parser.inner f (MkNode k a [] []) ts) as [[n' rest'] |] eqn:E;
        [| discriminate].
      cbn in H. apply IH in E. apply IH in H. cbn. lia.
    + destruct (in_end_tags name (cls root)).
      * inversion H; subst. cbn. lia.
      * apply IH in H. cbn. lia.
Qed.

(** The only exception of [inner], given more calls than tokens, is the
    [KeyError] of the registry. *)
Lemma inner_enough (f : nat) (root : node) (ts : list token) :
  length ts < f → Parser.inner f root ts ≠ Raise RecursionError.
Proof.
  revert root ts. induction f as [| f IH]; intros root ts Hlen; [lia |].
  destruct ts as [| [name a] ts]; [done |].
  rewrite inner_cons. cbn in Hlen. destruct (registry !! name) as [k |]; [| done].
  destruct (opens_scope k).
  - destruct (Parser.inner f (MkNode k a [] []) ts) as [[n' rest'] | e] eqn:E.
    + cbn. apply IH. apply inner_rest_length in E. lia.
    + cbn. intros [= ->]. by apply (IH (MkNode k a [] []) ts); [lia |].
  - destruct (in_end_tags name (cls root)); [done |]. apply IH. lia.
Qed.

(** More calls do not change what [inner] returns. *)
Lemma inner_mono (f : nat) (root : node) (ts : list token) :
  Parser.inner f root ts ≠ Raise RecursionError →
  Parser.inner (S f) root ts = Parser.inner f root ts.
Proof.
  revert root ts. induction f as [| f IH]; intros root ts H; [done |].
  destruct ts as [| [name a] ts]; [done |].
  rewrite inner_cons in H. rewrite (inner_cons (S f)), (inner_cons f).
  destruct (registry !! name) as [k |]; [| done].
  destruct (opens_scope k).
  - destruct (Parser.inner f (MkNode k a [] []) ts) as [[n' rest'] | e] eqn:E.
    + rewrite IH by (by rewrite E). rewrite E. cbn in *. by apply IH.
    + rewrite IH by (rewrite E; cbn in H; congruence). by rewrite E.
  - destruct (in_end_tags name (cls root)); [done |]. by apply IH.
Qed.

Lemma inner_fuel (f : nat) (root : node) (ts : list token) :
  length ts < f → Parser.inner f root ts = inner_all root ts.
Proof.
  unfold inner_all. intros Hlen.
  replace f with ((f - S (length ts)) + S (length ts)) by lia.
  generalize (f - S (length ts)) as n. induction n as [| n IH]; [done |].
  cbn [Nat.add]. rewrite inner_mono; [done |].
  rewrite IH. apply inner_enough. lia.
Qed.

(** The equations of [inner], once the fuel is out of the way. *)
Lemma inner_all_nil (root : node) : inner_all root [] = Ok (root, []).
Proof. reflexivity. Qed.

Lemma inner_all_cons (root : node) (name : string) (a : attrs) (rest : list token) :
  inner_all root ((name, a) :: rest)
  = match registry !! name with
    | None => Raise (KeyError name)
    | Some k =>
        if opens_scope k then
          rbind (inner_all (MkNode k a [] []) rest) (fun '(node', rest') =>
          inner_all (set_children root node') rest')
        else if in_end_tags name (cls root) then Ok (root, rest)
        else inner_all (set_children root (MkNode k a [] [])) rest
    end.
Proof.
  unfold inner_all at 1. cbn [length]. rewrite inner_cons.
  destruct (registry !! name) as [k |]; [| done].
  fold (inner_all (MkNode k a [] []) rest).
  fold (inner_all (set_children root (MkNode k a [] [])) rest).
  destruct (opens_scope k); [| done].
  destruct (inner_all (MkNode k a [] []) rest) as [[n' rest'] | e] eqn:E; [| done].
  cbn [rbind]. apply inner_fuel. unfold inner_all in E. apply inner_rest_length in E. lia.
Qed.

(** Up to the first token that the registry does not know, [inner] either
    raises the [KeyError] of that token or returns before it, at an end tag
    of its root. *)
Lemma inner_all_first_unregistered (root : node) (pre post : list token)
    (name : string) (a : attrs) :
  Forall registered pre →
  registry !! name = None →
  inner_all root (pre ++ (name, a) :: post) = Raise (KeyError name)
  ∨ (end_tags (cls root) ≠ None
     ∧ ∃ root' pre1 pre2,
         pre = (pre1 ++ pre2)%list
         ∧ inner_all root (pre ++ (name, a) :: post) = Ok (root', pre2 ++ (name, a) :: post)).
Proof.
  intros Hreg Hname. remember (length pre) as n eqn:Hn.
  revert root pre Hreg Hn. induction n as [n IH] using lt_wf_ind.
  intros root pre Hreg Hn. destruct pre as [| [n1 a1] pre'].
  - left. cbn [app]. by rewrite inner_all_cons, Hname.
  - cbn [app]. rewrite inner_all_cons.
    apply Forall_cons in Hreg as [[k1 Hk1] Hreg]. cbn [fst] in Hk1. rewrite Hk1.
    cbn in Hn. destruct (opens_scope k1).
    + destruct (IH (length pre') ltac:(lia) (MkNode k1 a1 [] []) pre' Hreg eq_refl)
        as [Hr | (_ & root' & p1 & p2 & Hp & Hr)].
      * left. by rewrite Hr.
      * rewrite Hr. cbn [rbind]. subst pre'.
        apply Forall_app in Hreg as [Hreg1 Hreg2].
        destruct (IH (length p2) ltac:(rewrite length_app in Hn; lia)
                    (set_children root root') p2 Hreg2 eq_refl)
          as [Hr2 | (Het & root'' & q1 & q2 & Hq & Hr2)].
        -- by left.
        -- right. rewrite cls_set_children in Het. split; [done |].
           exists root'', ((n1, a1) :: p1 ++ q1)%list, q2. split; [| done].
           subst p2. cbn. by rewrite app_assoc.
    + destruct (in_end_tags n1 (cls root)) eqn:Het.
      * right. split.
        { unfold in_end_tags in Het. by destruct (end_tags (cls root)). }
        by exists root, [(n1, a1)], pre'.
      * destruct (IH (length pre') ltac:(lia)
                    (set_children root (MkNode k1 a1 [] [])) pre' Hreg eq_refl)
          as [Hr | (Het' & root' & p1 & p2 & Hp & Hr)].
        -- by left.
        -- right. rewrite cls_set_children in Het'. split; [done |].
           exists root', ((n1, a1) :: p1)%list, p2. split; [| done]. by subst pre'.
Qed.

(** A closed sequence is read entirely, and adds its nodes to the root. *)
Lemma inner_all_closed (k : kind) (pre : list token) (ns : list node) :
  closed_seq k pre ns →
  ∀ root post, cls root = k →
    inner_all root (pre ++ post) = inner_all (foldl set_children root ns) post.
Proof.
  induction 1 as [k | k name a k' ts ns Hk' Hs Het _ IH
                  | k name a k' body bns cname ca kc ts ns Hk' Hs _ IHbody Hkc Hsc Het _ IH];
    intros root post Hcls.
  - reflexivity.
  - cbn [app foldl]. rewrite inner_all_cons, Hk', Hs, Hcls, Het.
    apply IH. by rewrite cls_set_children.
  - cbn [app foldl]. rewrite <- app_assoc. cbn [app].
    rewrite inner_all_cons, Hk', Hs.
    rewrite (IHbody (MkNode k' a [] []) ((cname, ca) :: ts ++ post)) by done.
    rewrite inner_all_cons, Hkc, Hsc, cls_foldl_set_children. cbn [cls]. rewrite Het.
    cbn [rbind]. apply IH. by rewrite cls_set_children.
Qed.

(** What [inner] does to its root is adding nodes to it, the same nodes
    for every root of the same class. *)
Lemma inner_adds (f : nat) (root root' : node) (ts rest : list token) :
  Parser.inner f root ts = Ok (root', rest) →
  ∃ ns, root' = foldl set_children root ns
        ∧ ∀ root2, cls root2 = cls root →
            Parser.inner f root2 ts = Ok (foldl set_children root2 ns, rest).
Proof.
  revert root root' ts rest. induction f as [| f IH]; intros root root' ts rest H;
    [discriminate |].
  destruct ts as [| [name a] ts].
  - cbn in H. inversion H; subst. by exists [].
  - rewrite inner_cons in H. destruct (registry !! name) as [k |] eqn:Hk; [| discriminate].
    destruct (opens_scope k) eqn:Hs.
    + destruct (Parser.inner f (MkNode k a [] []) ts) as [[n' r'] |] eqn:E; [| discriminate].
      cbn [rbind] in H. apply IH in H as (ns & -> & Hall).
      exists (n' :: ns). split; [done |]. intros root2 Hcls.
      rewrite inner_cons, Hk, Hs, E. cbn [rbind foldl]. apply Hall.
      by rewrite !cls_set_children.
    + destruct (in_end_tags name (cls root)) eqn:Het.
      * inversion H; subst. exists []. split; [done |]. intros root2 Hcls.
        by rewrite inner_cons, Hk, Hs, Hcls, Het.
      * apply IH in H as (ns & -> & Hall).
        exists (MkNode k a [] [] :: ns). split; [done |]. intros root2 Hcls.
        rewrite inner_cons, Hk, Hs, Hcls, Het. cbn [foldl]. apply Hall.
        by rewrite !cls_set_children.
Qed.

Lemma foldl_set_children_KNode (a : attrs) (c e ns : list node) :
  foldl set_children (MkNode KNode a c e) ns = MkNode KNode a (c ++ ns) e.
Proof.
  revert c. induction ns as [| n ns IH]; intros c; cbn.
  - by rewrite app_nil_r.
  - rewrite IH. by rewrite <- app_assoc.
Qed.

(** A fragment that is not true adds nothing to the joined output. *)
Lemma join_drop (vs1 vs2 : list value) (v : value) :
  truthy v = false → join (vs1 ++ v :: vs2) = join (vs1 ++ vs2).
Proof.
  intros Hv. induction vs1 as [| x vs1 IH]; cbn [app join].
  - by rewrite Hv.
  - by rewrite IH.
Qed.

(** ** The tree builder under the recursion limit *)

Lemma inner_within_O (f : nat) (root : node) (ts : list token) :
  Parser.inner_within 0 f root ts = Raise RecursionError.
Proof. by destruct f. Qed.

Lemma inner_within_cons (l f : nat) (root : node) (name : string) (a : attrs)
    (rest : list token) :
  Parser.inner_within (S l) (S f) root ((name, a) :: rest)
  = match registry !! name with
    | None => Raise (KeyError name)
    | Some k =>
        if opens_scope k then
          rbind (Parser.inner_within l f (MkNode k a [] []) rest) (fun '(node', rest') =>
          Parser.inner_within (S l) f (set_children root node') rest')
        else if in_end_tags name (cls root) then Ok (root, rest)
        else Parser.inner_within (S l) f (set_children root (MkNode k a [] [])) rest
    end.
Proof. cbn [Parser.inner_within]. unfold token_factory. by destruct (registry !! name). Qed.

(** What [inner] leaves is an end of what it was given. *)
Lemma inner_rest_suffix (f : nat) (root : node) (ts : list token) (r : node)
    (rest : list token) :
  Parser.inner f root ts = Ok (r, rest) → ∃ taken, ts = (taken ++ rest)%list.
Proof.
  revert root ts r rest. induction f as [| f IH]; intros root ts r rest H; [discriminate |].
  destruct ts as [| [name a] ts].
  - cbn in H. inversion H. by exists [].
  - rewrite inner_cons in H. destruct (registry !! name) as [k |]; [| discriminate].
    destruct (opens_scope k).
    + destruct (Parser.inner f (MkNode k a [] []) ts) as [[n' rest'] |] eqn:E;
        [| discriminate].
      cbn in H. apply IH in E as [t1 ->]. apply IH in H as [t2 ->].
      exists ((name, a) :: t1 ++ t2)%list. cbn. by rewrite <- app_assoc.
    + destruct (in_end_tags name (cls root)).
      * inversion H; subst. by exists [(name, a)].
      * apply IH in H as [t1 ->]. by exists ((name, a) :: t1).
Qed.

Lemma opened_app (ts1 ts2 : list token) : opened (ts1 ++ ts2) = opened ts1 + opened ts2.
Proof. induction ts1 as [| t ts1 IH]; [done |]. cbn [app opened]. rewrite IH. lia. Qed.

(** With room for one call more than the tokens open scopes, the limit is
    not reached: the builder is [inner]. *)
Lemma inner_within_enough (l f : nat) (root : node) (ts : list token) :
  opened ts < l → Parser.inner_within l f root ts = Parser.inner f root ts.
Proof.
  revert l root ts. induction f as [| f IH]; intros l root ts Hl.
  - destruct l; [lia | reflexivity].
  - destruct l as [| l]; [lia |]. destruct ts as [| [name a] ts]; [reflexivity |].
    rewrite inner_within_cons, inner_cons. cbn [opened] in Hl. unfold opens in Hl.
    cbn [fst] in Hl. destruct (registry !! name) as [k |]; [| done].
    destruct (opens_scope k).
    + rewrite IH by lia.
      destruct (Parser.inner f (MkNode k a [] []) ts) as [[n' rest'] | e] eqn:E; [| done].
      cbn [rbind]. apply IH. apply inner_rest_suffix in E as [taken ->].
      rewrite opened_app in Hl. lia.
    + destruct (in_end_tags name (cls root)); [done |]. apply IH. lia.
Qed.

(** Whatever the limit, a result other than [RecursionError] is the result
    of [inner]. *)
Lemma inner_within_sound (l f : nat) (root : node) (ts : list token)
    (r : result (node * list token)) :
  Parser.inner_within l f root ts = r → r ≠ Raise RecursionError →
  Parser.inner f root ts = r.
Proof.
  revert l root ts r. induction f as [| f IH]; intros l root ts r H Hr.
  - destruct l; cbn in H; congruence.
  - destruct l as [| l]; [cbn in H; congruence |].
    destruct ts as [| [name a] ts]; [done |].
    rewrite inner_within_cons in H. rewrite inner_cons.
    destruct (registry !! name) as [k |]; [| done].
    destruct (opens_scope k).
    + destruct (Parser.inner_within l f (MkNode k a [] []) ts) as [[n' rest'] | e] eqn:E.
      * rewrite (IH _ _ _ _ E) by done. cbn [rbind] in *. by apply (IH (S l)).
      * cbn [rbind] in H. subst r. by rewrite (IH _ _ _ _ E Hr).
    + destruct (in_end_tags name (cls root)); [done |]. by apply (IH (S l)).
Qed.

(** Up to the first token that the registry does not know, the limit is
    not reached when the tokens before it open fewer scopes than the limit
    has room for. *)
Lemma inner_within_first_unregistered (l f : nat) (root : node) (pre post : list token)
    (name : string) (a : attrs) :
  Forall registered pre →
  registry !! name = None →
  opened pre < l →
  length (pre ++ (name, a) :: post) < f →
  Parser.inner_within l f root (pre ++ (name, a) :: post)
  = Parser.inner f root (pre ++ (name, a) :: post).
Proof.
  intros Hreg Hname. revert l root pre Hreg.
  induction f as [| f IH]; intros l root pre Hreg Hl Hlen; [lia |].
  destruct l as [| l]; [lia |]. destruct pre as [| [n1 a1] pre'].
  - cbn [app]. by rewrite inner_within_cons, inner_cons, Hname.
  - cbn [app] in *. rewrite inner_within_cons, inner_cons.
    apply Forall_cons in Hreg as [[k1 Hk1] Hreg]. cbn [fst] in Hk1. rewrite Hk1.
    cbn [opened] in Hl. unfold opens in Hl. cbn [fst] in Hl. rewrite Hk1 in Hl.
    cbn [length] in Hlen. destruct (opens_scope k1).
    + rewrite IH by (done || lia).
      destruct (Parser.inner f (MkNode k1 a1 [] []) (pre' ++ (name, a) :: post))
        as [[n' rest'] | e] eqn:E; [| done].
      cbn [rbind]. rewrite inner_fuel in E by lia.
      destruct (inner_all_first_unregistered (MkNode k1 a1 [] []) pre' post name a
                  Hreg Hname) as [Hr | (_ & root' & p1 & p2 & -> & Hr)];
        [congruence |].
      rewrite Hr in E. injection E as <- <-.
      apply Forall_app in Hreg as [_ Hreg2]. rewrite opened_app in Hl.
      rewrite !length_app in Hlen. cbn [length] in Hlen.
      apply IH; [done | lia | rewrite length_app; cbn [length]; lia].
    + destruct (in_end_tags n1 (cls root)); [done |].
      apply IH; [done | lia | lia].
Qed.

Lemma build_ast_within_enough (limit : nat) (toks : list token) (err : option exn) :
  opened toks < limit →
  Parser.build_ast_within limit (toks, err) = Parser.build_ast (toks, err).
Proof.
  intros Hl. unfold Parser.build_ast_within, Parser.build_ast.
  by rewrite inner_within_enough.
Qed.

Lemma build_ast_within_sound (limit : nat) (tokens : list token * option exn)
    (r : result node) :
  Parser.build_ast_within limit tokens = r → r ≠ Raise RecursionError →
  Parser.build_ast tokens = r.
Proof.
  destruct tokens as [toks err]. unfold Parser.build_ast_within, Parser.build_ast.
  destruct (Parser.inner_within limit (S (length toks)) Parser.head toks)
    as [[root rest] | e] eqn:E; intros H Hr.
  - by rewrite (inner_within_sound _ _ _ _ _ E).
  - subst r. rewrite (inner_within_sound _ _ _ _ _ E); [done |].
    intros [= ->]. by apply Hr.
Qed.

(** Every [ELSE] opens a scope inside the scope before it: as many of
    them in a row as the limit has room for calls exhaust it. *)
Lemma else_tokens_exhaust_the_limit (limit : nat) (a : attrs) :
  Parser.build_ast_within limit (replicate limit ("ELSE", a), None)
  = Raise RecursionError.
Proof.
  unfold Parser.build_ast_within.
  assert (H : ∀ l f root, Parser.inner_within l f root (replicate l ("ELSE", a))
                          = Raise RecursionError).
  { induction l as [| l IH]; intros f root; [apply inner_within_O |].
    destruct f as [| f]; [reflexivity |].
    cbn [replicate]. rewrite inner_within_cons.
    change (registry !! "ELSE") with (Some KElse). cbv iota.
    change (opens_scope KElse) with true. cbv iota. by rewrite IH. }
  by rewrite H.
Qed.

(** ** C10: a directive that the registry does not know *)

Lemma registry_lookup_None (name : string) :
  name ∉ registry_keys → registry !! name = None.
Proof. intros H. by apply not_elem_of_list_to_map_1. Qed.

Lemma registry_lookup_Some (name : string) (k : kind) :
  registry !! name = Some k →
  name ∈ registry_keys ∧ k ≠ KNoop ∧ k ≠ KNode.
Proof.
  intros H. apply elem_of_list_to_map_2 in H.
  repeat (apply elem_of_cons in H as [[= -> ->] | H]);
    [by (split; [apply (bool_decide_unpack _) |]).. | by apply elem_of_nil in H].
Qed.

(** C10, as stated, fails: the verb of the directive [<!--#text-->] is,
    in upper case, none of the ten names, and [Parser.parse] returns a tree
    for it, with a [Text] node that holds nothing; the directive is left out
    of the output without any error. *)
Lemma C10_text_directive_is_accepted :
  (Py.upper "text" ∉ directive_names)
  ∧ Parser.parse Doc.text_directive = Ok (MkNode KNode ANone [MkNode KText ANone [] []] [])
  ∧ (render Doc.no_source Doc.no_source Doc.no_regex 2 Doc.text_directive ∅).1
    = Ok (VStr "").
Proof.
  split; [by apply (bool_decide_unpack _) |].
  split; vm_compute; reflexivity.
Qed.

(** C10, amended: when the tokens read from a document hold a token whose
    name is not a key of the registry, the keys being the ten names of
    directives and [TEXT], every token before it has a key of the registry
    as its name, and the tokens before it open fewer scopes than the
    recursion limit has room for calls of the builder, [Parser.parse]
    raises the [KeyError] of that name.  A token named [TEXT], which is
    what a directive whose verb is [text] gives, is accepted: its node is
    a [Text] that holds the attributes of the directive.  No key of the
    registry builds a [Noop] node. *)
Theorem C10_unregistered_directive
    (limit : nat) (text : string) (pre post : list token) (name : string) (a : attrs)
    (err : option exn) :
  Parser.lexemize text = ((pre ++ (name, a) :: post)%list, err) →
  Forall registered pre →
  opened pre < limit →
  name ∉ registry_keys →
  Parser.parse_within limit text = Raise (KeyError name)
  ∧ (∀ a', token_factory "TEXT" a' = Ok (MkNode KText a' [] []))
  ∧ (∀ n k, registry !! n = Some k → n ∈ registry_keys ∧ k ≠ KNoop).
Proof.
  intros Hlex Hpre Hlimit Hname. split; [| split].
  - unfold Parser.parse_within. rewrite Hlex. unfold Parser.build_ast_within.
    pose proof (registry_lookup_None name Hname) as Hnone.
    rewrite inner_within_first_unregistered by (done || lia).
    fold (inner_all Parser.head (pre ++ (name, a) :: post)).
    destruct (inner_all_first_unregistered Parser.head pre post name a Hpre Hnone)
      as [-> | [Het _]]; [done |].
    by cbn in Het.
  - reflexivity.
  - intros n k Hk. apply registry_lookup_Some in Hk as (? & ? & ?). done.
Qed.

Lemma C10_unregistered_directive_witness :
  Parser.lexemize Doc.unknown_directive
  = ([("TEXT", AStr "a")] ++ ("FOO", ANone) :: [("TEXT", AStr "b")], None)
  ∧ Forall registered [("TEXT", AStr "a")]
  ∧ opened [("TEXT", AStr "a")] < 1000
  ∧ ("FOO" ∉ registry_keys)
  ∧ Parser.parse_within 1000 Doc.unknown_directive = Raise (KeyError "FOO").
Proof.
  assert (H1 : Parser.lexemize Doc.unknown_directive
               = ([("TEXT", AStr "a")] ++ ("FOO", ANone) :: [("TEXT", AStr "b")], None))
    by (vm_compute; reflexivity).
  assert (H2 : Forall registered [("TEXT", AStr "a")])
    by (constructor; [by exists KText | constructor]).
  assert (H3 : opened [("TEXT", AStr "a")] < 1000) by (vm_compute; lia).
  assert (H4 : "FOO" ∉ registry_keys) by (by apply (bool_decide_unpack _)).
  split; [exact H1 |]. split; [exact H2 |]. split; [exact H3 |]. split; [exact H4 |].
  exact (proj1 (C10_unregistered_directive 1000 Doc.unknown_directive
                  [("TEXT", AStr "a")] [("TEXT", AStr "b")] "FOO" ANone None
                  H1 H2 H3 H4)).
Defined.

(** ** C9: an end tag that closes nothing *)

Section StrayEndTag.
Variables (file_content response_text : string -> option string).
Variable re_compile : string -> option matcher.
Local Abbreviation eval := (evaluate file_content response_text re_compile).

Lemma evaluate_end_tag (fuel : nat) (k : kind) (a : attrs) (w : world) :
  k = KEndblock ∨ k = KEndif →
  eval (S fuel) (MkNode k a [] []) w = (Ok (VStr ""), w).
Proof.
  intros Hk. rewrite evaluate_children; [reflexivity |].
  destruct Hk as [-> | ->]; apply (bool_decide_unpack _); reflexivity.
Qed.

(** A child that returns the empty string and changes nothing can be
    taken out of the root. *)
Lemma evaluate_root_drop (fuel : nat) (a0 : attrs) (ns1 ns2 e : list node) (n : node)
    (w : world) :
  (∀ w', eval (S fuel) n w' = (Ok (VStr ""), w')) →
  eval (S (S fuel)) (MkNode KNode a0 (ns1 ++ n :: ns2) e) w
  = eval (S (S fuel)) (MkNode KNode a0 (ns1 ++ ns2) e) w.
Proof.
  intros Hn. rewrite !evaluate_children by (apply (bool_decide_unpack _); reflexivity).
  unfold evaluate_tokens, evaluate_tokens_with, bind. rewrite !for_each_app.
  destruct (for_each (eval (S fuel)) ns1 w) as [[vs1 | e1] w1]; [| reflexivity].
  cbn [for_each]. unfold bind. rewrite Hn.
  destruct (for_each (eval (S fuel)) ns2 w1) as [[vs2 | e2] w2]; [| reflexivity].
  unfold ret, lift. by rewrite join_drop.
Qed.

(** C9: when the tokens of a document hold an [ENDBLOCK] or [ENDIF] token
    after a sequence that leaves no scope open, and the tokens without it
    build a tree, [Parser.parse] returns that tree with one more child of
    the root, the node of the end tag, at the place of the token.  That
    node evaluates to the empty string and changes nothing, and the two
    trees evaluate to the same result in the same world. *)
Theorem C9_stray_end_tag
    (text : string) (pre post : list token) (ns : list node) (stray : string)
    (a : attrs) (err : option exn) (t : node) :
  stray = "ENDBLOCK" ∨ stray = "ENDIF" →
  closed_seq KNode pre ns →
  Parser.lexemize text = ((pre ++ (stray, a) :: post)%list, err) →
  Parser.build_ast ((pre ++ post)%list, err) = Ok t →
  ∃ k ns',
    registry !! stray = Some k
    ∧ t = MkNode KNode ANone (ns ++ ns') []
    ∧ Parser.parse text = Ok (MkNode KNode ANone (ns ++ MkNode k a [] [] :: ns') [])
    ∧ (∀ fuel w, eval (S fuel) (MkNode k a [] []) w = (Ok (VStr ""), w))
    ∧ (∀ fuel w,
         eval (S (S fuel)) (MkNode KNode ANone (ns ++ MkNode k a [] [] :: ns') []) w
         = eval (S (S fuel)) t w).
Proof.
  intros Hstray Hpre Hlex Ht.
  assert (Hk : ∃ k, registry !! stray = Some k ∧ (k = KEndblock ∨ k = KEndif)
                    ∧ opens_scope k = false).
  { destruct Hstray as [-> | ->]; [exists KEndblock | exists KEndif]; by auto. }
  destruct Hk as (k & Hreg & Hk & Hscope).
  unfold Parser.build_ast in Ht. fold (inner_all Parser.head (pre ++ post)) in Ht.
  rewrite (inner_all_closed KNode pre ns Hpre Parser.head post eq_refl) in Ht.
  unfold Parser.head in Ht. rewrite foldl_set_children_KNode in Ht. cbn [app] in Ht.
  destruct (inner_all (MkNode KNode ANone ns []) post) as [[root' rest] | e] eqn:E;
    [| discriminate].
  destruct err as [e |]; [discriminate |]. injection Ht as ->.
  unfold inner_all in E. apply inner_adds in E as (ns' & -> & Hall).
  rewrite foldl_set_children_KNode.
  exists k, ns'. split; [done |]. split; [done |]. split; [| split].
  - unfold Parser.parse. rewrite Hlex. unfold Parser.build_ast.
    fold (inner_all Parser.head (pre ++ (stray, a) :: post)).
    rewrite (inner_all_closed KNode pre ns Hpre Parser.head _ eq_refl).
    unfold Parser.head. rewrite foldl_set_children_KNode. cbn [app].
    rewrite inner_all_cons, Hreg, Hscope. cbn [cls in_end_tags end_tags set_children].
    rewrite <- (inner_fuel (S (length post))) by lia.
    rewrite (Hall (MkNode KNode ANone (ns ++ [MkNode k a [] []]) [])) by done.
    rewrite foldl_set_children_KNode, <- app_assoc. reflexivity.
  - intros fuel w. by apply evaluate_end_tag.
  - intros fuel w. apply evaluate_root_drop. intros w'. by apply evaluate_end_tag.
Qed.

End StrayEndTag.

Lemma C9_stray_end_tag_witness :
  ("ENDIF" = "ENDBLOCK" ∨ "ENDIF" = "ENDIF")
  ∧ closed_seq KNode [("TEXT", AStr "a")] [MkNode KText (AStr "a") [] []]
  ∧ Parser.lexemize Doc.stray_endif
    = ([("TEXT", AStr "a")] ++ ("ENDIF", ANone) :: [("TEXT", AStr "b")], None)
  ∧ Parser.build_ast ([("TEXT", AStr "a")] ++ [("TEXT", AStr "b")], None)
    = Ok (MkNode KNode ANone [MkNode KText (AStr "a") [] []; MkNode KText (AStr "b") [] []] [])
  ∧ ∃ k ns',
      registry !! "ENDIF" = Some k
      ∧ Parser.parse Doc.stray_endif
        = Ok (MkNode KNode ANone
                ([MkNode KText (AStr "a") [] []] ++ MkNode k ANone [] [] :: ns') []).
Proof.
  assert (H1 : "ENDIF" = "ENDBLOCK" ∨ "ENDIF" = "ENDIF") by (by right).
  assert (H2 : closed_seq KNode [("TEXT", AStr "a")] [MkNode KText (AStr "a") [] []])
    by (by apply closed_leaf; [| | | apply closed_nil]).
  assert (H3 : Parser.lexemize Doc.stray_endif
               = ([("TEXT", AStr "a")] ++ ("ENDIF", ANone) :: [("TEXT", AStr "b")], None))
    by (vm_compute; reflexivity).
  assert (H4 : Parser.build_ast ([("TEXT", AStr "a")] ++ [("TEXT", AStr "b")], None)
               = Ok (MkNode KNode ANone
                       [MkNode KText (AStr "a") [] []; MkNode KText (AStr "b") [] []] []))
    by (vm_compute; reflexivity).
  split; [exact H1 |]. split; [exact H2 |]. split; [exact H3 |]. split; [exact H4 |].
  destruct (C9_stray_end_tag Doc.no_source Doc.no_source Doc.no_regex
              Doc.stray_endif [("TEXT", AStr "a")] [("TEXT", AStr "b")]
              [MkNode KText (AStr "a") [] []] "ENDIF" ANone None _ H1 H2 H3 H4)
    as (k & ns' & Hk & _ & Hparse & _).
  by exists k, ns'.
Defined.

(** ** C5: [if], [elif], [else] chains *)

Section Chains.
Variables (file_content response_text : string -> option string).
Variable re_compile : string -> option matcher.
Local Abbreviation eval := (evaluate file_content response_text re_compile).
Local Abbreviation eval_tokens :=
  (evaluate_tokens file_content response_text re_compile).




(** The driver on a single node that returns a string. *)
Lemma evaluate_tokens_with_single (ev : node -> M value) (n : node) (w : world) :
  evaluate_tokens_with ev [n] w
  = match ev n w with
    | (Ok v, w') =>
        (if truthy v then match v with VStr s => Ok s | _ => Raise TypeError end
         else Ok "", w')
    | (Raise e, w') => (Raise e, w')
    end.
Proof.
  unfold evaluate_tokens_with, bind. cbn [for_each]. unfold bind, ret, lift.
  destruct (ev n w) as [[v | e] w']; [| reflexivity].
  cbn [join]. destruct (truthy v); [| reflexivity].
  destruct v; try reflexivity. cbn [rbind]. by rewrite append_nil_r.
Qed.


(** An [If] or [Elif] node, in terms of its condition. *)
Lemma evaluate_If_condition (fuel : nat) (k : kind) (m : gmap string string)
    (c el : list node) (w : world) :
  k = KIf ∨ k = KElif →
  eval (S fuel) (MkNode k (ADict m) c el) w
  = match condition re_compile m w with
    | (Ok true, w1) =>
        match eval_tokens fuel c w1 with
        | (Ok s, w2) => (Ok (VStr s), w2)
        | (Raise e, w2) => (Raise e, w2)
        end
    | (Ok false, w1) =>
        match el with
        | [] => (Ok VNone, w1)
        | _ :: _ =>
            match eval_tokens fuel el w1 with
            | (Ok s, w2) => (Ok (VStr s), w2)
            | (Raise e, w2) => (Raise e, w2)
            end
        end
    | (Raise e, w1) => (Raise e, w1)
    end.
Proof.
  intros Hk. rewrite evaluate_If by done. unfold condition, bind, lift.
  destruct (attr_getitem (ADict m) "expr") as [expr |]; [| reflexivity].
  destruct (ExpressionParser.parse expr) as [t |]; [| reflexivity].
  destruct (Expression_evaluate re_compile t w) as [[[] | e] w1]; [| | reflexivity].
  - by destruct (eval_tokens fuel c w1) as [[s | e] w2].
  - destruct el as [| n el]; [reflexivity |].
    by destruct (eval_tokens fuel (n :: el) w1) as [[s | e] w2].
Qed.






End Chains.



(** The chain of the tests is built as [chain] says, and gives [baz] when
    [name] is neither [foo] nor [bar]. *)
Example if_elif_else_is_a_chain :
  Parser.parse Doc.if_elif_else
  = Ok (MkNode KNode ANone
          [chain KIf ({["expr" := "$name = foo"]}, [MkNode KText (AStr "foo") [] []])
             [({["expr" := "$name = bar"]}, [MkNode KText (AStr "bar") [] []])]
             (Some [MkNode KText (AStr "baz") [] []])]
          [])
  ∧ (render Doc.no_source Doc.no_source Doc.no_regex 5 Doc.if_elif_else
       {["name" := VStr "baz"]}).1 = Ok (VStr "baz")
  ∧ (render Doc.no_source Doc.no_source Doc.no_regex 5 Doc.if_elif_else
       {["name" := VStr "bar"]}).1 = Ok (VStr "bar").
Proof. repeat split; vm_compute; reflexivity. Qed.

(** ** C1, amended: what the document without [endif] gives *)

Section IfWithoutEndif.
Variables (file_content response_text : string -> option string).
Variable re_compile : string -> option matcher.

Lemma condition_name (w : world) :
  condition re_compile {["expr" := "$name"]} w
  = (Ok (bool_decide (is_Some (context w !! "name"))), w).
Proof.
  unfold condition.
  change (attr_getitem (ADict {["expr" := "$name"]}) "expr") with (Ok (A := string) "$name").
  rewrite bind_lift_ok.
  change (ExpressionParser.parse "$name") with (Ok (Tokens (Some "name") None None None)).
  rewrite bind_lift_ok. reflexivity.
Qed.

Lemma render_if_without_endif (fuel : nat) (ctx : gmap string value) :
  render file_content response_text re_compile (3 + fuel) Doc.if_without_endif ctx
  = (Ok (VStr (if bool_decide (is_Some (ctx !! "name")) then "foo" else "")),
     World ctx []).
Proof.
  unfold render.
  assert (Hparse : Parser.parse Doc.if_without_endif
                   = Ok (MkNode KNode ANone
                           [MkNode KIf (ADict {["expr" := "$name"]})
                              [MkNode KText (AStr "foo") [] []] []] []))
    by (vm_compute; reflexivity).
  rewrite Hparse. change (3 + fuel) with (S (S (S fuel))).
  rewrite evaluate_children by (apply (bool_decide_unpack _); reflexivity).
  unfold bind, evaluate_tokens. rewrite evaluate_tokens_with_single.
  rewrite evaluate_If_condition by (by left). rewrite condition_name. cbn [context].
  destruct (bool_decide (is_Some (ctx !! "name"))); [| reflexivity].
  unfold evaluate_tokens. rewrite evaluate_tokens_with_single. reflexivity.
Qed.

Lemma parse_without_end_delimiter (text before after : string) :
  Py.index Parser.start_delimiter text = Some (before, after) →
  Py.index Parser.end_delimiter after = None →
  Parser.parse text = Raise EndMarkerNotFound.
Proof.
  intros Hstart Hend. unfold Parser.parse, Parser.lexemize.
  cbn [Parser.lexemize_from]. rewrite Hstart, Hend.
  by destruct before.
Qed.

End IfWithoutEndif.

(** C1, amended: parsing the document succeeds and returns the root with
    one [If] node holding the text [foo]; in every context, rendering it
    gives [foo] when [name] is a key of the context and the empty string
    when it is not, and leaves the context as it was.  The end-marker
    failure is raised for every document whose first start delimiter has
    no end delimiter after it, as the same document cut before [-->]. *)
Theorem C1_if_without_endif :
  Parser.parse Doc.if_without_endif
  = Ok (MkNode KNode ANone
          [MkNode KIf (ADict {["expr" := "$name"]}) [MkNode KText (AStr "foo") [] []] []]
          [])
  ∧ (∀ fc rt rc fuel ctx,
       render fc rt rc (3 + fuel) Doc.if_without_endif ctx
       = (Ok (VStr (if bool_decide (is_Some (ctx !! "name")) then "foo" else "")),
          World ctx []))
  ∧ (∀ text before after,
       Py.index Parser.start_delimiter text = Some (before, after) →
       Py.index Parser.end_delimiter after = None →
       Parser.parse text = Raise EndMarkerNotFound)
  ∧ Parser.parse Doc.if_without_end_delimiter = Raise EndMarkerNotFound.
Proof.
  split; [vm_compute; reflexivity |].
  split; [intros; apply render_if_without_endif |].
  split; [apply parse_without_end_delimiter |].
  eapply parse_without_end_delimiter; vm_compute; reflexivity.
Qed.

(** ** C8: the attribute parser *)

Ltac each_ascii c := destruct c as [[] [] [] [] [] [] [] []].



Lemma all_chars_append (p : ascii -> bool) (a b : string) :
  all_chars p (a +:+ b) = all_chars p a && all_chars p b.
Proof.
  induction a as [| c a IH]; [reflexivity |].
  rewrite append_cons. cbn [all_chars]. by rewrite IH, andb_assoc.
Qed.

Lemma all_chars_impl (p p' : ascii -> bool) (s : string) :
  (∀ c, p c = true → p' c = true) → all_chars p s = true → all_chars p' s = true.
Proof.
  intros Hpp. induction s as [| c s IH]; [done |]. cbn [all_chars].
  intros [Hc Hs]%andb_true_iff. by rewrite (Hpp c Hc), IH.
Qed.

(** Text without tabs is not changed by [expandtabs]. *)
Lemma expandtabs_no_tab (s : string) (col : nat) :
  all_chars not_tab s = true → Py.expandtabs_from col s = s.
Proof.
  revert col. induction s as [| c s IH]; intros col; [done |].
  cbn [all_chars Py.expandtabs_from]. intros [Hc Hs]%andb_true_iff.
  unfold not_tab in Hc. apply negb_true_iff in Hc. rewrite Hc.
  destruct (Py.ascii_eqb c Py.LF || Py.ascii_eqb c Py.CR); by rewrite IH.
Qed.

Lemma span_append (p : ascii -> bool) (a b : string) :
  all_chars p a = true → starts_with p b = false →
  Py.span p (a +:+ b) = (a, b).
Proof.
  intros Ha Hb. induction a as [| c a IH].
  - rewrite append_nil_l. destruct b as [| c b]; [done |].
    cbn in *. by rewrite Hb.
  - cbn [all_chars] in Ha. apply andb_true_iff in Ha as [Hc Ha].
    rewrite append_cons. cbn [Py.span]. by rewrite Hc, IH.
Qed.

Lemma skip_ws_not_white (s : string) :
  starts_with Pyparsing.is_white s = false → Pyparsing.skip_ws s = s.
Proof. destruct s as [| c s]; [done |]. cbn. by intros ->. Qed.



Lemma append_char (c : ascii) (s : string) : String c EmptyString +:+ s = String c s.
Proof. reflexivity. Qed.








Lemma more_attrs_append (pairs : list (string * string)) (tail : string) :
  more_attrs pairs EmptyString +:+ tail = more_attrs pairs tail.
Proof.
  induction pairs as [| kv pairs IH]; [reflexivity |].
  cbn [more_attrs]. by rewrite !append_assoc, IH.
Qed.









(** The mapping built from the attributes gives each name the value of
    its last occurrence. *)
Lemma dict_of_last_value (pairs : list (string * string)) (k : string) :
  AttributeParser.dict_of pairs !! k = last_value k pairs.
Proof.
  unfold AttributeParser.dict_of.
  assert (H : ∀ m : gmap string string,
             foldl (fun m kv => <[kv.1 := kv.2]> m) m pairs !! k
             = match last_value k pairs with Some v => Some v | None => m !! k end).
  { induction pairs as [| [k' v] pairs IH]; intros m; [reflexivity |].
    cbn [foldl last_value fst snd]. rewrite IH.
    destruct (last_value k pairs); [reflexivity |].
    destruct (decide (k' = k)) as [-> | Hne].
    - by rewrite lookup_insert_eq.
    - by rewrite lookup_insert_ne. }
  rewrite H. by destruct (last_value k pairs).
Qed.

(** ** Fuel of the lexer and of the parsing library *)

Lemma strip_prefix_Some (p s r : string) :
  Py.strip_prefix p s = Some r → s = p +:+ r.
Proof.
  revert s. induction p as [| a p IH]; intros s; cbn [Py.strip_prefix].
  - by intros [= ->].
  - destruct s as [| b s]; [done |].
    unfold Py.ascii_eqb. destruct (Ascii.eqb_spec a b) as [-> | _]; [| done].
    intros H%IH. by rewrite append_cons, H.
Qed.

Lemma index_Some (needle s before rest : string) :
  Py.index needle s = Some (before, rest) → s = before +:+ needle +:+ rest.
Proof.
  revert before. induction s as [| c s IH]; intros before; cbn [Py.index].
  - destruct (Py.strip_prefix needle EmptyString) as [r |] eqn:E; [| done].
    intros [= <- <-]. by apply strip_prefix_Some in E.
  - destruct (Py.strip_prefix needle (String c s)) as [r |] eqn:E.
    + intros [= <- <-]. by apply strip_prefix_Some in E.
    + destruct (Py.index needle s) as [[b r] |]; [| done].
      intros [= <- <-]. rewrite append_cons. f_equal. by apply IH.
Qed.

(** The lexer never runs out of rounds: more fuel than the length of the
    text changes nothing. *)
Lemma lexemize_from_enough (f : nat) (text : string) :
  String.length text < f →
  Parser.lexemize_from (S f) text = Parser.lexemize_from f text.
Proof.
  revert text. induction f as [| f IH]; intros text Hlen; [lia |].
  cbn [Parser.lexemize_from].
  destruct (Py.index Parser.start_delimiter text) as [[value rest] |] eqn:E1; [| done].
  destruct (Py.index Parser.end_delimiter rest) as [[value' rest'] |] eqn:E2; [| done].
  apply index_Some in E1. apply index_Some in E2.
  assert (Hrest : String.length rest' < f).
  { subst text rest. rewrite !length_append in Hlen. cbn in Hlen. lia. }
  specialize (IH rest' Hrest). cbn [Parser.lexemize_from] in IH. rewrite IH.
  reflexivity.
Qed.

Lemma lexemize_from_fuel (f : nat) (text : string) :
  String.length text < f → Parser.lexemize_from f text = Parser.lexemize text.
Proof.
  unfold Parser.lexemize. intros Hlen.
  replace f with ((f - S (String.length text)) + S (String.length text)) by lia.
  generalize (f - S (String.length text)) as n. induction n as [| n IH]; [done |].
  cbn [Nat.add]. rewrite lexemize_from_enough by lia. exact IH.
Qed.








(** The repetition never runs out of rounds on a parser that consumes
    input: more rounds than the length of the input change nothing. *)
Lemma ZeroOrMore_n_enough {A} (p : Pyparsing.parser A) (n : nat) (s : string) :
  (∀ s' x r, p s' = Some (x, r) → String.length r < String.length s') →
  String.length s ≤ n →
  Pyparsing.ZeroOrMore_n (S n) p s = Pyparsing.ZeroOrMore_n n p s.
Proof.
  intros Hp. revert s. induction n as [| n IH]; intros s Hlen.
  - cbn [Pyparsing.ZeroOrMore_n]. destruct (p s) as [[x r] |] eqn:E; [| done].
    apply Hp in E. lia.
  - cbn [Pyparsing.ZeroOrMore_n]. destruct (p s) as [[x r] |] eqn:E; [| done].
    apply Hp in E. specialize (IH r ltac:(lia)).
    cbn [Pyparsing.ZeroOrMore_n] in IH. by rewrite IH.
Qed.




(** The attribute strings of the tests. *)
Example attribute_parser_tests :
  AttributeParser.parse ("key=value") = Raise ParseException
  ∧ AttributeParser.parse (Doc.attr "key" "value" +:+ " foo=" +:+ Py.q +:+ "bar")
    = Raise ParseException
  ∧ AttributeParser.parse (Doc.attr "key" "value" +:+ " " +:+ Doc.attr "key2" "value2")
    = Ok {["key" := "value"; "key2" := "value2"]}.
Proof. repeat split; vm_compute; reflexivity. Qed.

(** ** The text of an expression with a regular expression *)

Lemma word_char_facts (c : ascii) :
  word_char c = true → Pyparsing.is_white c = false ∧ not_tab c = true.
Proof. each_ascii c; vm_compute; intros H; first [discriminate H | done]. Qed.

Lemma regexp_char_facts (c : ascii) :
  regexp_char c = true →
  negb (Py.ascii_eqb c "/" || Py.ascii_eqb c Py.LF || Py.ascii_eqb c Py.CR) = true
  ∧ not_tab c = true.
Proof.
  unfold regexp_char, not_tab.
  destruct (Py.ascii_eqb c "/"), (Py.ascii_eqb c Py.LF), (Py.ascii_eqb c Py.CR),
    (Py.ascii_eqb c Py.TAB); done.
Qed.

(** Replacing the escapes leaves a string without backslash as it is,
    and never empties a string. *)
Lemma unescape_ws_plain (s : string) :
  all_chars not_backslash s = true → Pyparsing.unescape_ws s = s.
Proof.
  induction s as [| c s IH]; [reflexivity |].
  cbn [all_chars]. intros [Hc Hs]%andb_true_iff.
  cbn [Pyparsing.unescape_ws]. destruct s as [| d s]; [reflexivity |].
  unfold not_backslash in Hc. apply negb_true_iff in Hc. rewrite Hc.
  by rewrite (IH Hs).
Qed.

Lemma unescape_ws_nonempty (s : string) :
  s ≠ EmptyString → Pyparsing.unescape_ws s ≠ EmptyString.
Proof.
  destruct s as [| c [| d s]]; [done | done |]. intros _.
  cbn [Pyparsing.unescape_ws].
  by destruct (if Py.ascii_eqb c Py.backslash then Pyparsing.ws_escape d else None).
Qed.

Lemma regexp_parse (body : string) :
  all_chars regexp_char body = true →
  ExpressionParser.regexp (" /" +:+ body +:+ "/")
  = Some (Pyparsing.unescape_ws body, EmptyString).
Proof.
  intros Hbody. unfold ExpressionParser.regexp, Pyparsing.QuotedString.
  rewrite append_cons, append_char.
  change (Pyparsing.skip_ws (String " " (String "/" (body +:+ "/"))))
    with (String "/" (body +:+ "/")).
  change (Py.ascii_eqb "/" "/") with true. cbv iota.
  rewrite span_append; [reflexivity | | reflexivity].
  eapply all_chars_impl; [| exact Hbody].
  intros c Hc. by apply regexp_char_facts in Hc as [? _].
Qed.

Lemma variable_parse (var rest : string) :
  is_word var = true → starts_with word_char rest = false →
  ExpressionParser.variable ("$" +:+ var +:+ rest) = Some (var, rest).
Proof.
  unfold is_word. intros [Hne Hvar]%andb_true_iff Hrest.
  unfold ExpressionParser.variable, Pyparsing.And, Pyparsing.Literal.
  rewrite append_char.
  change (Pyparsing.skip_ws (String "$" (var +:+ rest))) with (String "$" (var +:+ rest)).
  change (Py.strip_prefix "$" (String "$" (var +:+ rest))) with (Some (var +:+ rest)).
  cbv iota beta. unfold ExpressionParser.word, Pyparsing.Word.
  destruct var as [| c var]; [done |].
  rewrite skip_ws_not_white.
  - rewrite span_append by done. reflexivity.
  - rewrite append_cons. cbn [starts_with]. cbn [all_chars] in Hvar.
    apply andb_true_iff in Hvar as [Hc _]. by apply word_char_facts in Hc as [? _].
Qed.

(** The expression parser reads the text of an expression with a regular
    expression as its variable, its operator and the body of the regular
    expression with its white-space escapes replaced. *)
Lemma parse_regex_form (var op regexp : string) :
  is_word var = true →
  op = "=" ∨ op = "!=" →
  regexp ≠ EmptyString →
  all_chars regexp_char regexp = true →
  ExpressionParser.parse (regex_form var op regexp)
  = Ok (Tokens (Some var) (Some op) None (Some (Pyparsing.unescape_ws regexp))).
Proof.
  intros Hvar Hop Hne Hre.
  assert (Hnamed : ExpressionParser.named (Pyparsing.unescape_ws regexp)
                   = Some (Pyparsing.unescape_ws regexp)).
  { apply unescape_ws_nonempty in Hne. by destruct (Pyparsing.unescape_ws regexp). }
  assert (Htab : all_chars not_tab (regex_form var op regexp) = true).
  { unfold regex_form. rewrite !all_chars_append.
    assert (H1 : all_chars not_tab var = true).
    { unfold is_word in Hvar. apply andb_true_iff in Hvar as [_ Hvar].
      eapply all_chars_impl; [| exact Hvar].
      intros c Hc. by apply word_char_facts in Hc as [_ ?]. }
    assert (H2 : all_chars not_tab regexp = true).
    { eapply all_chars_impl; [| exact Hre].
      intros c Hc. by apply regexp_char_facts in Hc as [_ ?]. }
    rewrite H1, H2. by destruct Hop as [-> | ->]. }
  unfold ExpressionParser.parse, Pyparsing.parseString, Py.expandtabs.
  rewrite expandtabs_no_tab by done.
  unfold regex_form, ExpressionParser.expression, Pyparsing.MatchFirst at 1,
    Pyparsing.And at 1.
  rewrite variable_parse by done.
  unfold Pyparsing.And at 1, ExpressionParser.operator, Pyparsing.MatchFirst,
    ExpressionParser.equal, ExpressionParser.not_equal, Pyparsing.Literal.
  destruct Hop as [-> | ->].
  - rewrite !append_char.
    change (Pyparsing.skip_ws (String " " (String "=" (" /" +:+ regexp +:+ "/"))))
      with (String "=" (" /" +:+ regexp +:+ "/")).
    change (Py.strip_prefix "=" (String "=" (" /" +:+ regexp +:+ "/")))
      with (Some (" /" +:+ regexp +:+ "/")).
    cbv iota beta. unfold Pyparsing.And at 1. rewrite regexp_parse by done.
    unfold Pyparsing.ret. rewrite Hnamed. reflexivity.
  - rewrite append_char. rewrite (append_cons "!"), append_char.
    change (Pyparsing.skip_ws (String " " (String "!" (String "=" (" /" +:+ regexp +:+ "/")))))
      with (String "!" (String "=" (" /" +:+ regexp +:+ "/"))).
    change (Py.strip_prefix "=" (String "!" (String "=" (" /" +:+ regexp +:+ "/"))))
      with (@None string).
    change (Py.strip_prefix "!=" (String "!" (String "=" (" /" +:+ regexp +:+ "/"))))
      with (Some (" /" +:+ regexp +:+ "/")).
    cbv iota beta. unfold Pyparsing.And at 1. rewrite regexp_parse by done.
    unfold Pyparsing.ret. rewrite Hnamed. reflexivity.
Qed.

(** ** C6: expressions with a regular expression *)

Lemma foldl_insert_notin {V} (items : list (string * V)) (m : gmap string V) (k : string) :
  k ∉ items.*1 →
  foldl (fun m kv => <[kv.1 := kv.2]> m) m items !! k = m !! k.
Proof.
  revert m. induction items as [| [k' v'] items IH]; intros m Hk; [reflexivity |].
  cbn in *. apply not_elem_of_cons in Hk as [Hne Hk].
  rewrite IH by done. by rewrite lookup_insert_ne.
Qed.

Lemma foldl_insert_in {V} (items : list (string * V)) (m : gmap string V)
    (k : string) (v : V) :
  NoDup items.*1 → (k, v) ∈ items →
  foldl (fun m kv => <[kv.1 := kv.2]> m) m items !! k = Some v.
Proof.
  revert m. induction items as [| [k' v'] items IH]; intros m Hnd Hin.
  - by apply elem_of_nil in Hin.
  - cbn in *. apply NoDup_cons in Hnd as [Hk' Hnd].
    apply elem_of_cons in Hin as [Heq | Hin].
    + inversion Heq; subst. rewrite foldl_insert_notin by done.
      by rewrite lookup_insert_eq.
    + by apply IH.
Qed.

Lemma groupdict_keys (groups : list (string * option string)) :
  (groupdict groups).*1 = groups.*1.
Proof. unfold groupdict. induction groups as [| [g o] groups IH]; [done |]. cbn. by rewrite IH. Qed.

Section RegexExpression.
Variable re_compile : string -> option matcher.

(** C6, the counter-instance: the parser records no regular expression
    for the text [$x = //], so the expression is the test that the
    variable is in the context: it is false in the empty context, where
    the empty pattern matches the empty string that stands for the missing
    variable. *)
Lemma C6_empty_regexp_is_the_existence_test :
  ExpressionParser.parse (regex_form "x" "=" "")
  = Ok (Tokens (Some "x") (Some "=") None None)
  ∧ (∃ pattern, Doc.prefix_regex "" = Some pattern ∧ is_Some (pattern ""))
  ∧ Expression_evaluate Doc.prefix_regex (Tokens (Some "x") (Some "=") None None)
      (World ∅ [])
    = (Ok false, World ∅ []).
Proof.
  split; [vm_compute; reflexivity |]. split; [| vm_compute; reflexivity].
  eexists. split; [reflexivity |]. by eexists.
Qed.

(** C6: for an expression that holds a variable, an operator [=] or [!=]
    and a regular expression that is not empty, evaluated in a context
    where the variable is a string or is missing (the empty string is
    matched then): the result is whether the regular expression matches
    for [=], and the opposite for [!=]; the context is updated with the
    named groups exactly when the result is true and there is a match, and
    is left as it was otherwise.  A group that took no part in the match
    is written as the empty mapping, never as [None]; the keys that are
    not groups keep their values.  The expression is what the expression
    parser reads from the text [$var op /written/], where the regular
    expression is [written] with its white-space escapes replaced. *)
Theorem C6_regex_expression
    (var op regexp : string) (pattern : matcher) (subject : string) (w : world) :
  regexp ≠ EmptyString →
  re_compile regexp = Some pattern →
  op = "=" ∨ op = "!=" →
  default (VStr EmptyString) (context w !! var) = VStr subject →
  let expression := Tokens (Some var) (Some op) None (Some regexp) in
  let matched := bool_decide (is_Some (pattern subject)) in
  let result := if bool_decide (op = "=") then matched else negb matched in
  let groups := default [] (pattern subject) in
  Expression_evaluate re_compile expression w
  = (Ok result, if result && matched then updated (groupdict groups) w else w)
  ∧ (∀ g o, NoDup groups.*1 → (g, o) ∈ groups →
       context (updated (groupdict groups) w) !! g
       = Some match o with Some s => VStr s | None => VDict ∅ end
       ∧ context (updated (groupdict groups) w) !! g ≠ Some VNone)
  ∧ (∀ k, k ∉ groups.*1 →
       context (updated (groupdict groups) w) !! k = context w !! k)
  ∧ (∀ written,
       is_word var = true → all_chars regexp_char written = true →
       Pyparsing.unescape_ws written = regexp →
       ExpressionParser.parse (regex_form var op written) = Ok expression).
Proof.
  intros Hne Hre Hop Hsubj expression matched result groups.
  subst expression matched result groups.
  split; [| split; [| split]].
  - unfold Expression_evaluate. cbn [tok_regexp tok_variable tok_operator tok_text].
    assert (Hg : given (Some regexp) = true) by (by destruct regexp).
    rewrite Hg. unfold bind at 1, get_context.
    rewrite Hsubj. change (default EmptyString (Some regexp)) with regexp. rewrite Hre.
    destruct Hop as [-> | ->]; cbn [_get_operator_func]; rewrite bind_lift_ok;
      destruct (pattern subject) as [groups |]; reflexivity.
  - intros g o Hnd Hin.
    assert (Hlook : context (updated (groupdict (default [] (pattern subject))) w) !! g
                    = Some match o with Some s => VStr s | None => VDict ∅ end).
    { unfold updated. cbn [context]. apply foldl_insert_in.
      - by rewrite groupdict_keys.
      - unfold groupdict. apply list_elem_of_fmap. by exists (g, o). }
    split; [exact Hlook |]. rewrite Hlook. by destruct o.
  - intros k Hk. unfold updated. cbn [context]. apply foldl_insert_notin.
    by rewrite groupdict_keys.
  - intros written Hvar Hchars Hwritten. subst regexp.
    apply parse_regex_form; [done | done | | done].
    intros ->. by apply Hne.
Qed.

End RegexExpression.

Lemma C6_regex_expression_witness :
  "test" ≠ EmptyString
  ∧ Doc.prefix_regex "test"
    = Some (fun s => match Py.strip_prefix "test" s with
                     | Some rest => Some [("rest", Some rest); ("none", None)]
                     | None => None
                     end)
  ∧ ("=" = "=" ∨ "=" = "!=")
  ∧ default (VStr EmptyString) (context (World {["name" := VStr "test2"]} []) !! "name")
    = VStr "test2"
  ∧ Expression_evaluate Doc.prefix_regex
      (Tokens (Some "name") (Some "=") None (Some "test"))
      (World {["name" := VStr "test2"]} [])
    = (Ok true,
       World (<["none" := VDict ∅]> (<["rest" := VStr "2"]> {["name" := VStr "test2"]})) []).
Proof.
  split; [discriminate |]. split; [reflexivity |]. split; [by left |].
  split; [reflexivity |].
  etrans;
    [exact (proj1 (C6_regex_expression Doc.prefix_regex "name" "=" "test" _ "test2"
                     (World {["name" := VStr "test2"]} [])
                     ltac:(discriminate) eq_refl (or_introl eq_refl) eq_refl))
    | vm_compute; reflexivity].
Defined.

(** * Further properties of the program *)

(** ** The driver and the directives that write to the context *)

Lemma join_app (vs1 vs2 : list value) :
  join (vs1 ++ vs2)
  = rbind (join vs1) (fun s1 => rbind (join vs2) (fun s2 => Ok (s1 +:+ s2))).
Proof.
  induction vs1 as [| v vs1 IH]; cbn [app join].
  - cbn [rbind]. by destruct (join vs2).
  - destruct (truthy v); [| exact IH]. destruct v; try reflexivity.
    rewrite IH. destruct (join vs1) as [s1 |]; [| reflexivity]. cbn [rbind].
    destruct (join vs2) as [s2 |]; [| reflexivity]. cbn [rbind].
    by rewrite append_assoc.
Qed.

Lemma foldl_insert_map_to_list (m : gmap string string) (ctx : gmap string value) :
  foldl (fun acc kv => <[kv.1 := kv.2]> acc) ctx
    (map (fun kv : string * string => (kv.1, VStr kv.2)) (map_to_list m))
  = (VStr <$> m) ∪ ctx.
Proof.
  apply map_eq. intros k.
  set (items := map (fun kv : string * string => (kv.1, VStr kv.2)) (map_to_list m)).
  assert (Hkeys : items.*1 = (map_to_list m).*1).
  { unfold items. generalize (map_to_list m). intros l.
    induction l as [| [k' v'] l IH]; [done |]. cbn. by rewrite IH. }
  destruct (m !! k) as [v |] eqn:Hk.
  - rewrite (foldl_insert_in items ctx k (VStr v)).
    + symmetry. apply lookup_union_Some_l. by rewrite lookup_fmap, Hk.
    + rewrite Hkeys. apply NoDup_fst_map_to_list.
    + unfold items. apply list_elem_of_fmap. exists (k, v). split; [done |].
      by apply elem_of_map_to_list.
  - rewrite foldl_insert_notin.
    + symmetry. rewrite lookup_union_r; [done |]. by rewrite lookup_fmap, Hk.
    + rewrite Hkeys. intros Hin. apply list_elem_of_fmap in Hin as ([k' v'] & -> & Hin).
      apply elem_of_map_to_list in Hin. cbn in Hk. congruence.
Qed.

Section Directives.
Variables (file_content response_text : string -> option string).
Variable re_compile : string -> option matcher.
Local Abbreviation eval := (evaluate file_content response_text re_compile).
Local Abbreviation eval_tokens :=
  (evaluate_tokens file_content response_text re_compile).

(** X1: the driver goes from left to right: when a first list of nodes
    gives a string, the nodes that follow are evaluated in the world the
    first ones left, and the two strings are put one after the other; an
    exception of the nodes that follow is the exception of the whole. *)
Theorem X1_evaluate_tokens_app
    (fuel : nat) (l1 l2 : list node) (w w1 : world) (s1 : string) :
  eval_tokens fuel l1 w = (Ok s1, w1) →
  eval_tokens fuel (l1 ++ l2) w
  = match eval_tokens fuel l2 w1 with
    | (Ok s2, w2) => (Ok (s1 +:+ s2), w2)
    | (Raise e, w2) => (Raise e, w2)
    end.
Proof.
  unfold evaluate_tokens, evaluate_tokens_with, bind, lift. rewrite for_each_app.
  destruct (for_each (eval fuel) l1 w) as [[vs1 | e1] w1']; [| by intros [=]].
  destruct (join vs1) as [s1' |] eqn:Hj1; intros [= <- <-].
  destruct (for_each (eval fuel) l2 w1') as [[vs2 | e2] w2]; [| reflexivity].
  rewrite join_app, Hj1. cbn [rbind]. by destruct (join vs2).
Qed.

(** X2: a [set] directive followed by an [echo] of the same variable
    gives the value as it was written, whatever the context held before,
    and leaves the variable bound to it. *)
Theorem X2_set_then_echo
    (fuel : nat) (ms me : gmap string string) (var value : string)
    (c c' el el' : list node) (w : world) :
  ms !! "var" = Some var →
  ms !! "value" = Some value →
  me !! "var" = Some var →
  eval_tokens (S fuel) [MkNode KSet (ADict ms) c el; MkNode KEcho (ADict me) c' el'] w
  = (Ok value, assigned var (VStr value) w).
Proof.
  intros Hvar Hvalue Hecho.
  unfold evaluate_tokens, evaluate_tokens_with. cbn [for_each].
  rewrite evaluate_Echo. cbn [evaluate cls attributes attr_getitem].
  rewrite Hvar, Hvalue, Hecho.
  unfold bind, lift, setitem, ret, except_KeyError, getitem. cbn [context].
  rewrite lookup_insert_eq. cbn [call_or_return]. unfold ret.
  change (join [VNone; VStr value]) with (join [VStr value]).
  rewrite join_VStr. cbn [join rbind]. by rewrite append_nil_r.
Qed.

(** X3: a [config] directive returns [None] and merges its attributes
    into the context: every attribute is bound to its value, and the keys
    that are not attributes keep what they held. *)
Theorem X3_config_merges
    (fuel : nat) (m : gmap string string) (c el : list node) (w : world) :
  eval (S fuel) (MkNode KConfig (ADict m) c el) w
  = (Ok VNone, World ((VStr <$> m) ∪ context w) (requests w)).
Proof.
  cbn [evaluate cls attributes]. unfold bind, update, ret.
  by rewrite foldl_insert_map_to_list.
Qed.

(** X4: an [echo] of a variable that the context binds to a value that
    is not a function returns that value as it is, even [None], and
    leaves the world alone; the [default] attribute plays no part. *)
Theorem X4_echo_present
    (fuel : nat) (m : gmap string string) (var : string) (v : value)
    (c el : list node) (w : world) :
  m !! "var" = Some var →
  context w !! var = Some v →
  is_callable v = false →
  eval (S fuel) (MkNode KEcho (ADict m) c el) w = (Ok v, w).
Proof.
  intros Hvar Hctx Hv. rewrite evaluate_Echo. cbn [attr_getitem].
  rewrite Hvar, bind_lift_ok. unfold except_KeyError, bind, getitem. rewrite Hctx.
  by destruct v.
Qed.

(** X5: a directive that reads an attribute it was not given raises
    before it reads or writes the world: the [KeyError] of the attribute
    when it has other attributes, a [TypeError] when it has none.  For an
    [echo] this is not the missing-variable case: nothing is caught. *)
Theorem X5_missing_attribute
    (fuel : nat) (k : kind) (key : string) (a : attrs) (c el : list node) (w : world) :
  required_attribute k = Some key →
  match a with ADict m => m !! key = None | _ => True end →
  eval (S fuel) (MkNode k a c el) w
  = (Raise match a with ADict _ => KeyError key | _ => TypeError end, w).
Proof.
  intros Hk Ha.
  destruct k; try discriminate Hk; injection Hk as <-;
    destruct a as [| s | m];
    cbn [evaluate cls attributes attr_getitem]; rewrite ?Ha; reflexivity.
Qed.

End Directives.

Lemma X1_evaluate_tokens_app_witness :
  evaluate_tokens Doc.no_source Doc.no_source Doc.no_regex 1
    [MkNode KText (AStr "a") [] []] (World ∅ [])
  = (Ok "a", World ∅ [])
  ∧ evaluate_tokens Doc.no_source Doc.no_source Doc.no_regex 1
      ([MkNode KText (AStr "a") [] []] ++ [MkNode KText (AStr "b") [] []]) (World ∅ [])
    = (Ok "ab", World ∅ []).
Proof.
  split; [reflexivity |].
  etrans;
    [apply (X1_evaluate_tokens_app Doc.no_source Doc.no_source Doc.no_regex 1
              [MkNode KText (AStr "a") [] []] [MkNode KText (AStr "b") [] []]
              (World ∅ []) (World ∅ []) "a"); reflexivity
    | reflexivity].
Defined.

Lemma X2_set_then_echo_witness :
  ({["var" := "name"; "value" := "foo"]} : gmap string string) !! "var" = Some "name"
  ∧ ({["var" := "name"; "value" := "foo"]} : gmap string string) !! "value" = Some "foo"
  ∧ ({["var" := "name"]} : gmap string string) !! "var" = Some "name"
  ∧ evaluate_tokens Doc.no_source Doc.no_source Doc.no_regex 1
      [MkNode KSet (ADict {["var" := "name"; "value" := "foo"]}) [] [];
       MkNode KEcho (ADict {["var" := "name"]}) [] []]
      (World {["name" := VStr "old"]} [])
    = (Ok "foo", assigned "name" (VStr "foo") (World {["name" := VStr "old"]} [])).
Proof.
  split; [reflexivity |]. split; [reflexivity |]. split; [reflexivity |].
  apply (X2_set_then_echo Doc.no_source Doc.no_source Doc.no_regex 0
           {["var" := "name"; "value" := "foo"]} {["var" := "name"]} "name" "foo");
    reflexivity.
Defined.

Lemma X4_echo_present_witness :
  ({["var" := "name"; "default" := "bar"]} : gmap string string) !! "var" = Some "name"
  ∧ context (World {["name" := VNone]} []) !! "name" = Some VNone
  ∧ is_callable VNone = false
  ∧ evaluate Doc.no_source Doc.no_source Doc.no_regex 1
      (MkNode KEcho (ADict {["var" := "name"; "default" := "bar"]}) [] [])
      (World {["name" := VNone]} [])
    = (Ok VNone, World {["name" := VNone]} []).
Proof.
  split; [reflexivity |]. split; [reflexivity |]. split; [reflexivity |].
  apply (X4_echo_present Doc.no_source Doc.no_source Doc.no_regex 0
           {["var" := "name"; "default" := "bar"]} "name" VNone); reflexivity.
Defined.

Lemma X5_missing_attribute_witness :
  required_attribute KEcho = Some "var"
  ∧ ({["default" := "bar"]} : gmap string string) !! "var" = None
  ∧ evaluate Doc.no_source Doc.no_source Doc.no_regex 1
      (MkNode KEcho (ADict {["default" := "bar"]}) [] []) (World ∅ [])
    = (Raise (KeyError "var"), World ∅ []).
Proof.
  split; [reflexivity |]. split; [reflexivity |].
  apply (X5_missing_attribute Doc.no_source Doc.no_source Doc.no_regex 0 KEcho "var"
           (ADict {["default" := "bar"]})); reflexivity.
Defined.

(** ** The [include] directive *)

Section Includes.
Variables (file_content response_text : string -> option string).
Variable re_compile : string -> option matcher.
Local Abbreviation eval := (evaluate file_content response_text re_compile).
Local Abbreviation eval_tokens :=
  (evaluate_tokens file_content response_text re_compile).

Lemma given_Some (s : string) : s ≠ EmptyString → given (Some s) = true.
Proof. by destruct s. Qed.

(** An [include] that declares [file] alone, up to the content. *)
Lemma include_file (fuel : nat) (m : gmap string string) (file : string)
    (c el : list node) (w : world) :
  m !! "file" = Some file → file ≠ EmptyString → given (m !! "virtual") = false →
  eval (S fuel) (MkNode KInclude (ADict m) c el) w
  = match file_content file with
    | None => (Raise (FetchError file), requested (OpenFile file) w)
    | Some raw =>
        let content := Py.strip raw in
        let w1 := requested (OpenFile file) w in
        if given (m !! "set") then
          (Ok VNone, assigned (default EmptyString (m !! "set")) (VStr content) w1)
        else if negb (Parser.nonempty content) && given (m !! "stub") then
          (block <- getitem (default EmptyString (m !! "stub")) ;;
           call_or_return (eval_tokens fuel) block)%ssi w1
        else (Ok (VStr content), w1)
    end.
Proof.
  intros Hfile Hne Hurl. rewrite evaluate_Include. cbn [attr_get].
  rewrite !bind_lift_ok, Hfile, Hurl, (given_Some file Hne).
  cbn [andb orb negb default from_option id].
  unfold _get_file, bind at 1, bind at 1, record.
  destruct (file_content file) as [raw |]; [| reflexivity].
  unfold ret at 1, bind at 1, ret at 1. rewrite bind_lift_ok.
  destruct (given (m !! "set")); [reflexivity |]. rewrite bind_lift_ok.
  by destruct (negb (Parser.nonempty (Py.strip raw)) && given (m !! "stub")).
Qed.

(** An [include] that declares [virtual] alone, up to the content. *)
Lemma include_virtual (fuel : nat) (m : gmap string string) (url : string)
    (c el : list node) (w : world) :
  m !! "virtual" = Some url → url ≠ EmptyString → given (m !! "file") = false →
  eval (S fuel) (MkNode KInclude (ADict m) c el) w
  = match response_text url with
    | None => (Raise (FetchError url), requested (HttpGet url) w)
    | Some content =>
        let w1 := requested (HttpGet url) w in
        if given (m !! "set") then
          (Ok VNone, assigned (default EmptyString (m !! "set")) (VStr content) w1)
        else if negb (Parser.nonempty content) && given (m !! "stub") then
          (block <- getitem (default EmptyString (m !! "stub")) ;;
           call_or_return (eval_tokens fuel) block)%ssi w1
        else (Ok (VStr content), w1)
    end.
Proof.
  intros Hurl Hne Hfile. rewrite evaluate_Include. cbn [attr_get].
  rewrite !bind_lift_ok, Hfile, Hurl, (given_Some url Hne).
  cbn [andb orb negb default from_option id].
  unfold bind at 1, ret at 1. unfold _get_url, bind at 1, bind at 1, record.
  destruct (response_text url) as [content |]; [| reflexivity].
  unfold ret at 1. rewrite bind_lift_ok.
  destruct (given (m !! "set")); [reflexivity |]. rewrite bind_lift_ok.
  by destruct (negb (Parser.nonempty content) && given (m !! "stub")).
Qed.

(** X6: an [include] of a file with a [set] attribute opens the file
    once, returns [None], and binds the variable to the content of the
    file without the white space around it; an [echo] of the variable
    right after it gives that content. *)
Theorem X6_include_file_set
    (fuel : nat) (m me : gmap string string) (file raw name : string)
    (c el c' el' : list node) (w : world) :
  m !! "file" = Some file → file ≠ EmptyString →
  given (m !! "virtual") = false →
  m !! "set" = Some name → name ≠ EmptyString →
  file_content file = Some raw →
  me !! "var" = Some name →
  let include := MkNode KInclude (ADict m) c el in
  let w' := assigned name (VStr (Py.strip raw)) (requested (OpenFile file) w) in
  eval (S fuel) include w = (Ok VNone, w')
  ∧ eval_tokens (S fuel) [include; MkNode KEcho (ADict me) c' el'] w
    = (Ok (Py.strip raw), w').
Proof.
  intros Hfile Hne Hurl Hset Hname Hraw Hvar include w'. subst include w'.
  assert (Hinc : eval (S fuel) (MkNode KInclude (ADict m) c el) w
                 = (Ok VNone,
                    assigned name (VStr (Py.strip raw)) (requested (OpenFile file) w))).
  { rewrite (include_file fuel m file c el w Hfile Hne Hurl), Hraw, Hset.
    cbv zeta. by rewrite (given_Some name Hname). }
  split; [exact Hinc |].
  unfold evaluate_tokens. rewrite (evaluate_tokens_with_none _ _ _ _ _ Hinc).
  rewrite evaluate_tokens_with_single. rewrite evaluate_Echo. cbn [attr_getitem].
  rewrite Hvar, bind_lift_ok. unfold except_KeyError, bind, getitem, assigned.
  cbn [context]. rewrite lookup_insert_eq. cbn [call_or_return ret truthy].
  unfold ret. by destruct (Py.strip raw).
Qed.

(** X7: an [include] of an address, without [set], whose response is not
    empty or which has no [stub], makes one request and returns the body
    of the response as it is: white space around it is kept, where the
    content of a file is stripped. *)
Theorem X7_include_virtual
    (fuel : nat) (m : gmap string string) (url body : string)
    (c el : list node) (w : world) :
  m !! "virtual" = Some url → url ≠ EmptyString →
  given (m !! "file") = false →
  given (m !! "set") = false →
  response_text url = Some body →
  body ≠ EmptyString ∨ given (m !! "stub") = false →
  eval (S fuel) (MkNode KInclude (ADict m) c el) w
  = (Ok (VStr body), requested (HttpGet url) w).
Proof.
  intros Hurl Hne Hfile Hset Hbody Hstub.
  rewrite (include_virtual fuel m url c el w Hurl Hne Hfile), Hbody, Hset. cbv zeta.
  destruct Hstub as [Hb | ->]; [by destruct body |].
  by rewrite andb_false_r.
Qed.

(** X8: when the one source an [include] declares cannot be fetched, the
    directive raises after one request and the context is as it was, also
    when it has a [set] attribute. *)
Theorem X8_include_fetch_failure
    (fuel : nat) (m : gmap string string) (target : string)
    (c el : list node) (w : world) :
  target ≠ EmptyString →
  (m !! "file" = Some target ∧ given (m !! "virtual") = false
   ∧ file_content target = None)
  ∨ (m !! "virtual" = Some target ∧ given (m !! "file") = false
     ∧ response_text target = None) →
  ∃ r, (r = OpenFile target ∨ r = HttpGet target)
       ∧ eval (S fuel) (MkNode KInclude (ADict m) c el) w
         = (Raise (FetchError target), requested r w).
Proof.
  intros Hne [(Hfile & Hurl & Hnone) | (Hurl & Hfile & Hnone)].
  - exists (OpenFile target). split; [by left |].
    by rewrite (include_file fuel m target c el w Hfile Hne Hurl), Hnone.
  - exists (HttpGet target). split; [by right |].
    by rewrite (include_virtual fuel m target c el w Hurl Hne Hfile), Hnone.
Qed.

(** X9: an [include] of a file whose content is empty, with a [stub]
    that the context does not bind, raises the [KeyError] of the stub. *)
Theorem X9_include_stub_missing
    (fuel : nat) (m : gmap string string) (file raw stub : string)
    (c el : list node) (w : world) :
  m !! "file" = Some file → file ≠ EmptyString →
  given (m !! "virtual") = false →
  given (m !! "set") = false →
  file_content file = Some raw → Py.strip raw = EmptyString →
  m !! "stub" = Some stub → stub ≠ EmptyString →
  context w !! stub = None →
  eval (S fuel) (MkNode KInclude (ADict m) c el) w
  = (Raise (KeyError stub), requested (OpenFile file) w).
Proof.
  intros Hfile Hne Hurl Hset Hraw Hstrip Hstub Hsne Hctx.
  rewrite (include_file fuel m file c el w Hfile Hne Hurl), Hraw, Hset, Hstub. cbv zeta.
  rewrite Hstrip, (given_Some stub Hsne). cbn [Parser.nonempty negb andb default from_option id].
  unfold bind, getitem, requested. cbn [context]. by rewrite Hctx.
Qed.

End Includes.

Lemma X6_include_file_set_witness :
  ({["file" := "include.txt"; "set" := "name"]} : gmap string string) !! "file"
  = Some "include.txt"
  ∧ "include.txt" ≠ EmptyString
  ∧ given (({["file" := "include.txt"; "set" := "name"]} : gmap string string) !! "virtual")
    = false
  ∧ ({["file" := "include.txt"; "set" := "name"]} : gmap string string) !! "set"
    = Some "name"
  ∧ "name" ≠ EmptyString
  ∧ example_files "include.txt" = Some ("foo" +:+ String Py.LF EmptyString)
  ∧ ({["var" := "name"]} : gmap string string) !! "var" = Some "name"
  ∧ evaluate_tokens example_files example_network Doc.no_regex 1
      [MkNode KInclude (ADict {["file" := "include.txt"; "set" := "name"]}) [] [];
       MkNode KEcho (ADict {["var" := "name"]}) [] []]
      (World ∅ [])
    = (Ok "foo", World {["name" := VStr "foo"]} [OpenFile "include.txt"]).
Proof.
  split; [reflexivity |]. split; [discriminate |]. split; [reflexivity |].
  split; [reflexivity |]. split; [discriminate |]. split; [reflexivity |].
  split; [reflexivity |].
  etrans;
    [exact (proj2 (X6_include_file_set example_files example_network Doc.no_regex 0
                     {["file" := "include.txt"; "set" := "name"]} {["var" := "name"]}
                     "include.txt" ("foo" +:+ String Py.LF EmptyString) "name"
                     [] [] [] [] (World ∅ [])
                     eq_refl ltac:(discriminate) eq_refl eq_refl ltac:(discriminate)
                     eq_refl eq_refl))
    | vm_compute; reflexivity].
Defined.

Lemma X7_include_virtual_witness :
  ({["virtual" := "/foo"]} : gmap string string) !! "virtual" = Some "/foo"
  ∧ "/foo" ≠ EmptyString
  ∧ given (({["virtual" := "/foo"]} : gmap string string) !! "file") = false
  ∧ given (({["virtual" := "/foo"]} : gmap string string) !! "set") = false
  ∧ example_network "/foo" = Some (" foo" +:+ String Py.LF EmptyString)
  ∧ evaluate example_files example_network Doc.no_regex 1
      (MkNode KInclude (ADict {["virtual" := "/foo"]}) [] []) (World ∅ [])
    = (Ok (VStr (" foo" +:+ String Py.LF EmptyString)),
       requested (HttpGet "/foo") (World ∅ [])).
Proof.
  split; [reflexivity |]. split; [discriminate |]. split; [reflexivity |].
  split; [reflexivity |]. split; [reflexivity |].
  apply (X7_include_virtual example_files example_network Doc.no_regex 0
           {["virtual" := "/foo"]} "/foo" (" foo" +:+ String Py.LF EmptyString));
    [reflexivity | discriminate | reflexivity | reflexivity | reflexivity
    | by right].
Defined.

Lemma X8_include_fetch_failure_witness :
  "gone.txt" ≠ EmptyString
  ∧ ({["file" := "gone.txt"; "set" := "name"]} : gmap string string) !! "file"
    = Some "gone.txt"
  ∧ given (({["file" := "gone.txt"; "set" := "name"]} : gmap string string) !! "virtual")
    = false
  ∧ example_files "gone.txt" = None
  ∧ ∃ r, evaluate example_files example_network Doc.no_regex 1
           (MkNode KInclude (ADict {["file" := "gone.txt"; "set" := "name"]}) [] [])
           (World ∅ [])
         = (Raise (FetchError "gone.txt"), requested r (World ∅ [])).
Proof.
  split; [discriminate |]. split; [reflexivity |]. split; [reflexivity |].
  split; [reflexivity |].
  destruct (X8_include_fetch_failure example_files example_network Doc.no_regex 0
              {["file" := "gone.txt"; "set" := "name"]} "gone.txt" [] [] (World ∅ [])
              ltac:(discriminate) (or_introl (conj eq_refl (conj eq_refl eq_refl))))
    as (r & _ & Hr).
  by exists r.
Defined.

Lemma X9_include_stub_missing_witness :
  ({["file" := "empty.txt"; "stub" := "name"]} : gmap string string) !! "file"
  = Some "empty.txt"
  ∧ "empty.txt" ≠ EmptyString
  ∧ given (({["file" := "empty.txt"; "stub" := "name"]} : gmap string string) !! "virtual")
    = false
  ∧ given (({["file" := "empty.txt"; "stub" := "name"]} : gmap string string) !! "set")
    = false
  ∧ example_files "empty.txt" = Some EmptyString
  ∧ Py.strip EmptyString = EmptyString
  ∧ ({["file" := "empty.txt"; "stub" := "name"]} : gmap string string) !! "stub"
    = Some "name"
  ∧ "name" ≠ EmptyString
  ∧ context (World ∅ []) !! "name" = None
  ∧ evaluate example_files example_network Doc.no_regex 1
      (MkNode KInclude (ADict {["file" := "empty.txt"; "stub" := "name"]}) [] [])
      (World ∅ [])
    = (Raise (KeyError "name"), requested (OpenFile "empty.txt") (World ∅ [])).
Proof.
  repeat (split; [first [reflexivity | discriminate] |]).
  apply (X9_include_stub_missing example_files example_network Doc.no_regex 0
           {["file" := "empty.txt"; "stub" := "name"]} "empty.txt" EmptyString "name");
    first [reflexivity | discriminate].
Defined.

(** ** Expressions *)

Lemma span_all (p : ascii -> bool) (s a b : string) :
  Py.span p s = (a, b) → all_chars p a = true.
Proof.
  revert a b. induction s as [| c s IH]; intros a b; cbn [Py.span].
  - by intros [= <- <-].
  - destruct (p c) eqn:Hc; [| by intros [= <- <-]].
    destruct (Py.span p s) as [a' b'] eqn:E. intros [= <- <-].
    cbn [all_chars]. by rewrite Hc, (IH a' b' eq_refl).
Qed.

Lemma Word_result (p : ascii -> bool) (s w r : string) :
  Pyparsing.Word p s = Some (w, r) → Parser.nonempty w && all_chars p w = true.
Proof.
  unfold Pyparsing.Word. destruct (Py.span p (Pyparsing.skip_ws s)) as [a b] eqn:E.
  apply span_all in E. destruct a as [| c a]; [done |]. by intros [= <- <-].
Qed.

Lemma variable_result (s v r : string) :
  ExpressionParser.variable s = Some (v, r) → is_word v = true.
Proof.
  unfold ExpressionParser.variable, Pyparsing.And.
  destruct (Pyparsing.Literal "$" s) as [[x r1] |]; [| done].
  unfold ExpressionParser.word. apply Word_result.
Qed.

Lemma operator_result (s o r : string) :
  ExpressionParser.operator s = Some (o, r) → o = "=" ∨ o = "!=".
Proof.
  unfold ExpressionParser.operator, Pyparsing.MatchFirst, ExpressionParser.equal,
    ExpressionParser.not_equal, Pyparsing.Literal.
  destruct (Py.strip_prefix "=" (Pyparsing.skip_ws s)); [intros [= <- <-]; by left |].
  destruct (Py.strip_prefix "!=" (Pyparsing.skip_ws s)); [intros [= <- <-]; by right |].
  done.
Qed.

Lemma expression_shape (s r : string) (t : tokens) :
  ExpressionParser.expression s = Some (t, r) → well_shaped t.
Proof.
  unfold ExpressionParser.expression, Pyparsing.MatchFirst, Pyparsing.And, Pyparsing.ret.
  destruct (ExpressionParser.variable s) as [[v r1] |] eqn:Ev; [| done].
  apply variable_result in Ev.
  destruct (ExpressionParser.operator r1) as [[o r2] |] eqn:Eo.
  - apply operator_result in Eo.
    assert (Ho : ExpressionParser.named o = Some o) by (by destruct Eo as [-> | ->]).
    rewrite Ho.
    assert (Hshape : ∀ tx re, well_shaped (Tokens (Some v) (Some o) tx re)).
    { intros tx re. split; [by exists v |]. split; [| done].
      destruct Eo as [-> | ->]; auto. }
    destruct (ExpressionParser.regexp r2) as [[re r3] |]; [intros [= <- _]; apply Hshape |].
    destruct (ExpressionParser.text r2) as [[tx r3] |]; [intros [= <- _]; apply Hshape |].
    intros [= <- _]. split; [by exists v |]. split; [by left | done].
  - intros [= <- _]. split; [by exists v |]. split; [by left | done].
Qed.

Lemma QuotedString_parse (qc : ascii) (body : string) :
  Pyparsing.is_white qc = false →
  all_chars (fun d => negb (Py.ascii_eqb d qc || Py.ascii_eqb d Py.LF || Py.ascii_eqb d Py.CR))
    body = true →
  Pyparsing.QuotedString qc (" " +:+ String qc (body +:+ String qc EmptyString))
  = Some (Pyparsing.unescape_ws body, EmptyString).
Proof.
  intros Hqc Hbody. unfold Pyparsing.QuotedString. rewrite append_char.
  cbn [Pyparsing.skip_ws]. change (Pyparsing.is_white " ") with true. cbv iota.
  rewrite Hqc. unfold Py.ascii_eqb at 1. rewrite Ascii.eqb_refl.
  rewrite span_append; [| done |].
  - unfold Py.ascii_eqb at 1. by rewrite Ascii.eqb_refl.
  - cbn [starts_with]. unfold Py.ascii_eqb at 1. by rewrite Ascii.eqb_refl.
Qed.

Lemma operator_parse (op rest : string) :
  op = "=" ∨ op = "!=" →
  ExpressionParser.operator (" " +:+ op +:+ rest) = Some (op, rest).
Proof.
  unfold ExpressionParser.operator, Pyparsing.MatchFirst, ExpressionParser.equal,
    ExpressionParser.not_equal, Pyparsing.Literal.
  intros [-> | ->]; rewrite append_char.
  - rewrite append_char. reflexivity.
  - rewrite (append_cons "!"), append_char. reflexivity.
Qed.

Section Expressions.
Variable re_compile : string -> option matcher.

(** X10: a comparison of a variable with a text is true, for [=], when
    the context binds the variable to that very string, and false
    otherwise, also when the variable is missing; [!=] gives the opposite.
    The context is not changed.  The expression parser reads the text
    [$var op 'written'] as this comparison, the text being [written]
    with its white-space escapes replaced. *)
Theorem X10_text_comparison (var op text : string) (w : world) :
  text ≠ EmptyString →
  op = "=" ∨ op = "!=" →
  (∃ same : bool,
     (same = true ↔ context w !! var = Some (VStr text))
     ∧ Expression_evaluate re_compile (Tokens (Some var) (Some op) (Some text) None) w
       = (Ok (if bool_decide (op = "=") then same else negb same), w))
  ∧ (∀ written,
       is_word var = true → all_chars text_char written = true →
       Pyparsing.unescape_ws written = text →
       ExpressionParser.parse (text_form var op written)
       = Ok (Tokens (Some var) (Some op) (Some text) None)).
Proof.
  intros Hne Hop. split.
  - exists (value_eq_str (context w !! var) text). split.
    { unfold value_eq_str. destruct (context w !! var) as [[| s | |] |];
        try (split; [discriminate | congruence]).
      rewrite bool_decide_eq_true. split; [by intros -> | by intros [= ->]]. }
    unfold Expression_evaluate. cbn [tok_regexp tok_variable tok_operator tok_text].
    change (given None) with false. cbv iota. rewrite (given_Some text Hne).
    destruct Hop as [-> | ->]; cbn [_get_operator_func]; rewrite bind_lift_ok;
      reflexivity.
  - intros written Hvar Htext Hwritten.
    assert (Hnamed : ExpressionParser.named text = Some text) by (by destruct text).
    assert (Hop' : ExpressionParser.named op = Some op) by (by destruct Hop as [-> | ->]).
    assert (Htab : all_chars not_tab (text_form var op written) = true).
    { unfold text_form. rewrite !all_chars_append.
      assert (H1 : all_chars not_tab var = true).
      { unfold is_word in Hvar. apply andb_true_iff in Hvar as [_ Hvar].
        eapply all_chars_impl; [| exact Hvar].
        intros c Hc. by apply word_char_facts in Hc as [_ ?]. }
      assert (H2 : all_chars not_tab written = true).
      { eapply all_chars_impl; [| exact Htext]. intros c. unfold text_char, not_tab.
        destruct (Py.ascii_eqb c "'"), (Py.ascii_eqb c Py.LF), (Py.ascii_eqb c Py.CR),
          (Py.ascii_eqb c Py.TAB); done. }
      rewrite H1, H2. by destruct Hop as [-> | ->]. }
    assert (Hquoted : ExpressionParser.text (" '" +:+ written +:+ "'")
                      = Some (text, EmptyString)).
    { unfold ExpressionParser.text, Pyparsing.MatchFirst, ExpressionParser._text.
      rewrite (append_cons " "), append_char.
      change (String " " (String "'" (written +:+ "'")))
        with (" " +:+ String "'" (written +:+ String "'" EmptyString)).
      rewrite QuotedString_parse; [by rewrite Hwritten | reflexivity |].
      eapply all_chars_impl; [| exact Htext]. intros c. unfold text_char.
      destruct (Py.ascii_eqb c "'"), (Py.ascii_eqb c Py.LF), (Py.ascii_eqb c Py.CR); done. }
    assert (Hnotre : ExpressionParser.regexp (" '" +:+ written +:+ "'") = None).
    { unfold ExpressionParser.regexp, Pyparsing.QuotedString.
      rewrite (append_cons " "), append_char. reflexivity. }
    unfold ExpressionParser.parse, Pyparsing.parseString, Py.expandtabs.
    rewrite expandtabs_no_tab by done.
    unfold text_form, ExpressionParser.expression, Pyparsing.MatchFirst, Pyparsing.And.
    rewrite variable_parse by done. rewrite operator_parse by done.
    rewrite Hnotre, Hquoted. unfold Pyparsing.ret. by rewrite Hop', Hnamed.
Qed.

(** X11: an expression made of a variable alone is the test that the
    context has the variable as a key, whatever the value, [None]
    included; the context is not changed.  The expression parser reads
    the text [$var] as this test. *)
Theorem X11_existence_test (var : string) (w : world) :
  is_word var = true →
  Expression_evaluate re_compile (Tokens (Some var) None None None) w
  = (Ok (bool_decide (is_Some (context w !! var))), w)
  ∧ ExpressionParser.parse ("$" +:+ var) = Ok (Tokens (Some var) None None None).
Proof.
  intros Hvar. split.
  - unfold Expression_evaluate. cbn [tok_regexp tok_variable tok_operator tok_text given].
    unfold is_word in Hvar. apply andb_true_iff in Hvar as [Hne _].
    destruct var as [| c var]; [done |]. reflexivity.
  - assert (Htab : all_chars not_tab ("$" +:+ var) = true).
    { rewrite all_chars_append. unfold is_word in Hvar.
      apply andb_true_iff in Hvar as [_ Hvar].
      rewrite (all_chars_impl word_char not_tab var); [done | | done].
      intros c Hc. by apply word_char_facts in Hc as [_ ?]. }
    unfold ExpressionParser.parse, Pyparsing.parseString, Py.expandtabs.
    rewrite expandtabs_no_tab by done.
    unfold ExpressionParser.expression, Pyparsing.MatchFirst, Pyparsing.And.
    replace ("$" +:+ var) with ("$" +:+ var +:+ EmptyString)
      by (by rewrite append_nil_r).
    rewrite variable_parse by done. reflexivity.
Qed.

(** X12: every expression that the expression parser accepts has a
    variable, which is a word, and has an operator, [=] or [!=], when it
    has a text or a regular expression; evaluating it never raises
    [ExpressionEvaluationError]. *)
Theorem X12_parsed_expression_evaluates (text : string) (t : tokens) (w : world) :
  ExpressionParser.parse text = Ok t →
  well_shaped t
  ∧ (Expression_evaluate re_compile t w).1 ≠ Raise ExpressionEvaluationError.
Proof.
  unfold ExpressionParser.parse, Pyparsing.parseString.
  destruct (ExpressionParser.expression (Py.expandtabs text)) as [[t' r] |] eqn:E;
    [| done].
  destruct (Pyparsing.skip_ws r); [| done]. intros [= ->].
  apply expression_shape in E. split; [exact E |].
  destruct E as ((v & Hv & Hword) & Hop & Hnone).
  destruct t as [tv top ttx tre]. cbn in *. subst tv.
  unfold Expression_evaluate. cbn [tok_regexp tok_variable tok_operator tok_text].
  assert (Hgv : given (Some v) = true).
  { unfold is_word in Hword. apply andb_true_iff in Hword as [? _]. by destruct v. }
  destruct Hop as [-> | Hop].
  - destruct (Hnone eq_refl) as [-> ->]. change (given None) with false. cbv iota.
    rewrite Hgv. unfold bind, get_context, ret. cbn [fst]. discriminate.
  - assert (Hf : ∃ f, _get_operator_func top = Ok f)
      by (destruct Hop as [-> | ->]; by eexists).
    destruct Hf as [f Hf].
    destruct (given tre).
    + unfold bind at 1, get_context.
      destruct (re_compile _); [| done].
      destruct (default (VStr EmptyString) (context w !! v)); try done.
      rewrite Hf, bind_lift_ok.
      destruct (m s) as [groups |]; [| done].
      unfold bind. by destruct (apply_op f _).
    + destruct (given ttx).
      * by rewrite Hf, bind_lift_ok.
      * by rewrite Hgv.
Qed.

End Expressions.

Lemma X10_text_comparison_witness :
  "foo fool" ≠ EmptyString
  ∧ ("!=" = "=" ∨ "!=" = "!=")
  ∧ Expression_evaluate Doc.no_regex
      (Tokens (Some "name") (Some "!=") (Some "foo fool") None)
      (World {["name" := VStr "bar baz"]} [])
    = (Ok true, World {["name" := VStr "bar baz"]} [])
  ∧ ExpressionParser.parse (text_form "name" "!=" "foo fool")
    = Ok (Tokens (Some "name") (Some "!=") (Some "foo fool") None).
Proof.
  split; [discriminate |]. split; [by right |].
  pose proof (X10_text_comparison Doc.no_regex "name" "!=" "foo fool"
                (World {["name" := VStr "bar baz"]} [])
                ltac:(discriminate) (or_intror eq_refl)) as [(same & _ & Heval) Hparse].
  split; [| by apply Hparse].
  vm_compute. reflexivity.
Defined.

(** An escape in the quoted text: the comparison is with the text that
    holds the tab. *)
Example text_comparison_with_an_escape :
  ExpressionParser.parse
    (text_form "name" "=" ("x" +:+ String Py.backslash "ty"))
  = Ok (Tokens (Some "name") (Some "=") (Some ("x" +:+ String Py.TAB "y")) None).
Proof. vm_compute. reflexivity. Qed.

Lemma X11_existence_test_witness :
  is_word "name" = true
  ∧ Expression_evaluate Doc.no_regex (Tokens (Some "name") None None None)
      (World {["name" := VNone]} [])
    = (Ok true, World {["name" := VNone]} [])
  ∧ ExpressionParser.parse "$name" = Ok (Tokens (Some "name") None None None).
Proof.
  split; [reflexivity |].
  pose proof (X11_existence_test Doc.no_regex "name" (World {["name" := VNone]} [])
                eq_refl) as [Heval Hparse].
  split; [etrans; [exact Heval | vm_compute; reflexivity] | exact Hparse].
Defined.

Lemma X12_parsed_expression_evaluates_witness :
  ExpressionParser.parse "$name = bar" = Ok (Tokens (Some "name") (Some "=") (Some "bar") None)
  ∧ well_shaped (Tokens (Some "name") (Some "=") (Some "bar") None).
Proof.
  split; [reflexivity |].
  exact (proj1 (X12_parsed_expression_evaluates Doc.no_regex "$name = bar"
                  (Tokens (Some "name") (Some "=") (Some "bar") None) (World ∅ [])
                  eq_refl)).
Defined.

(** ** The tree builder on arbitrary tokens *)

(** [inner] succeeds on tokens that the registry knows, and leaves some of
    them. *)
Lemma inner_registered (f : nat) (root : node) (ts : list token) :
  length ts < f → Forall registered ts →
  ∃ root' rest, Parser.inner f root ts = Ok (root', rest) ∧ Forall registered rest.
Proof.
  revert root ts. induction f as [| f IH]; intros root ts Hlen Hreg; [lia |].
  destruct ts as [| [name a] ts]; [by exists root, [] |].
  rewrite inner_cons. apply Forall_cons in Hreg as [[k Hk] Hreg]. cbn [fst] in Hk.
  rewrite Hk. cbn [length] in Hlen. destruct (opens_scope k).
  - destruct (IH (MkNode k a [] []) ts ltac:(lia) Hreg) as (n' & rest & E & Hrest).
    rewrite E. cbn [rbind]. apply IH; [| done].
    apply inner_rest_length in E. lia.
  - destruct (in_end_tags name (cls root)); [by exists root, ts |].
    apply IH; [lia | done].
Qed.

Lemma first_unregistered (ts : list token) :
  Forall registered ts
  ∨ ∃ pre name a post,
      ts = (pre ++ (name, a) :: post)%list ∧ Forall registered pre ∧ registry !! name = None.
Proof.
  induction ts as [| [name a] ts IH]; [by left |].
  destruct (registry !! name) as [k |] eqn:Hk.
  - destruct IH as [IH | (pre & n & a' & post & -> & Hpre & Hn)].
    + left. apply Forall_cons. split; [by exists k | done].
    + right. exists ((name, a) :: pre), n, a', post. split; [done |].
      split; [| done]. apply Forall_cons. split; [by exists k | done].
  - right. by exists [], name, a, ts.
Qed.

Lemma foldl_set_children_plain (k : kind) (a : attrs) (c e ns : list node) :
  k ≠ KIf → k ≠ KElif →
  foldl set_children (MkNode k a c e) ns = MkNode k a (c ++ ns) e.
Proof.
  intros H1 H2. revert c. induction ns as [| n ns IH]; intros c; cbn [foldl].
  - by rewrite app_nil_r.
  - replace (set_children (MkNode k a c e) n) with (MkNode k a (c ++ [n]) e)
      by (by destruct k).
    rewrite IH. by rewrite <- app_assoc.
Qed.

Lemma foldl_set_children_If (a : attrs) (c e ns : list node) :
  Forall (fun n => cls n ≠ KElif ∧ cls n ≠ KElse) ns →
  foldl set_children (MkNode KIf a c e) ns = MkNode KIf a (c ++ ns) e.
Proof.
  intros Hns. revert c. induction Hns as [| n ns [H1 H2] _ IH]; intros c; cbn [foldl].
  - by rewrite app_nil_r.
  - replace (set_children (MkNode KIf a c e) n) with (MkNode KIf a (c ++ [n]) e)
      by (cbn; by destruct (cls n)).
    rewrite IH. by rewrite <- app_assoc.
Qed.



(** X14: the builder never rejects a token sequence for the way its
    scopes are nested or left open.  It returns a tree only when the name
    of every token is a key of the registry; on such tokens the one
    exception it can raise is [RecursionError], and it returns a tree
    whenever the tokens open fewer scopes than the recursion limit has
    room for calls. *)
Theorem X14_build_ast_on_registered_tokens (limit : nat) (toks : list token) :
  ((∃ t, Parser.build_ast_within limit (toks, None) = Ok t) → Forall registered toks)
  ∧ (Forall registered toks →
     (∀ e, Parser.build_ast_within limit (toks, None) = Raise e → e = RecursionError)
     ∧ (opened toks < limit → ∃ t, Parser.build_ast_within limit (toks, None) = Ok t)).
Proof.
  assert (Hok : Forall registered toks → ∃ t, Parser.build_ast (toks, None) = Ok t).
  { intros Hreg. unfold Parser.build_ast.
    destruct (inner_registered (S (length toks)) Parser.head toks ltac:(lia) Hreg)
      as (root' & rest & E & _).
    rewrite E. by exists root'. }
  split; [| intros Hreg; split].
  - intros [t Ht]. apply build_ast_within_sound in Ht; [| done].
    unfold Parser.build_ast in Ht.
    destruct (first_unregistered toks)
      as [H | (pre & name & a & post & -> & Hpre & Hname)]; [done |].
    fold (inner_all Parser.head (pre ++ (name, a) :: post)) in Ht.
    destruct (inner_all_first_unregistered Parser.head pre post name a Hpre Hname)
      as [E | [Het _]]; [by rewrite E in Ht | done].
  - intros e He. destruct (Hok Hreg) as [t Ht].
    assert (Hcase : e = RecursionError ∨ e ≠ RecursionError)
      by (destruct e; (by left) || (by right)).
    destruct Hcase as [| Hne]; [done |].
    apply build_ast_within_sound in He; [congruence |]. by intros [= ->].
  - intros Hl. rewrite build_ast_within_enough by done. by apply Hok.
Qed.

Lemma X14_build_ast_on_registered_tokens_witness :
  Forall registered [("IF", ANone); ("ELSE", ANone); ("TEXT", AStr "a")]
  ∧ opened [("IF", ANone); ("ELSE", ANone); ("TEXT", AStr "a")] < 3
  ∧ ∃ t, Parser.build_ast_within 3
           ([("IF", ANone); ("ELSE", ANone); ("TEXT", AStr "a")], None) = Ok t.
Proof.
  assert (H1 : Forall registered [("IF", ANone); ("ELSE", ANone); ("TEXT", AStr "a")])
    by (repeat constructor; by eexists).
  assert (H2 : opened [("IF", ANone); ("ELSE", ANone); ("TEXT", AStr "a")] < 3)
    by (vm_compute; lia).
  split; [exact H1 |]. split; [exact H2 |].
  exact (proj2 (proj2 (X14_build_ast_on_registered_tokens 3 _) H1) H2).
Defined.

(** X15: an [ENDIF] closes the innermost open scope only.  After
    [IF ... ELSE ... ENDIF] it has closed the [Else], the [If] is still
    open, and the tokens that follow become children of the [If] beside
    those of its true branch: they are evaluated only when the condition
    is true. *)
Theorem X15_endif_closes_the_else_only
    (a b c : attrs) (body ebody tail : list token) (bns ens tns : list node) :
  closed_seq KIf body bns →
  closed_seq KElse ebody ens →
  closed_seq KIf tail tns →
  Forall (fun n => cls n ≠ KElif ∧ cls n ≠ KElse) (bns ++ tns) →
  Parser.build_ast
    (("IF", a) :: body ++ ("ELSE", b) :: ebody ++ ("ENDIF", c) :: tail, None)
  = Ok (MkNode KNode ANone [MkNode KIf a (bns ++ tns) [MkNode KElse b ens []]] []).
Proof.
  intros Hbody Hebody Htail Hkinds.
  apply Forall_app in Hkinds as [Hb Ht].
  unfold Parser.build_ast.
  fold (inner_all Parser.head (("IF", a) :: body ++ ("ELSE", b) :: ebody ++ ("ENDIF", c) :: tail)).
  rewrite inner_all_cons.
  change (registry !! "IF") with (Some KIf). cbv iota. cbn [opens_scope end_tags].
  rewrite (inner_all_closed KIf body bns Hbody (MkNode KIf a [] []) _ eq_refl).
  rewrite foldl_set_children_If by done. cbn [app].
  rewrite inner_all_cons.
  change (registry !! "ELSE") with (Some KElse). cbv iota. cbn [opens_scope end_tags].
  rewrite (inner_all_closed KElse ebody ens Hebody (MkNode KElse b [] []) _ eq_refl).
  rewrite foldl_set_children_plain by done. cbn [app].
  rewrite inner_all_cons.
  change (registry !! "ENDIF") with (Some KEndif). cbv iota. cbn [opens_scope end_tags cls].
  change (in_end_tags "ENDIF" KElse) with true. cbv iota. cbn [rbind set_children cls app].
  rewrite <- (app_nil_r tail).
  rewrite (inner_all_closed KIf tail tns Htail
             (MkNode KIf a bns [MkNode KElse b ens []]) [] eq_refl).
  rewrite foldl_set_children_If by done. rewrite inner_all_nil. cbn [rbind].
  rewrite inner_all_nil. reflexivity.
Qed.

Lemma X15_endif_closes_the_else_only_witness :
  closed_seq KIf [("TEXT", AStr "foo")] [MkNode KText (AStr "foo") [] []]
  ∧ closed_seq KElse [("TEXT", AStr "bar")] [MkNode KText (AStr "bar") [] []]
  ∧ closed_seq KIf [("TEXT", AStr "tail")] [MkNode KText (AStr "tail") [] []]
  ∧ Parser.parse Doc.if_else_then_text
    = Ok (MkNode KNode ANone
            [MkNode KIf (ADict {["expr" := "$name"]})
               ([MkNode KText (AStr "foo") [] []] ++ [MkNode KText (AStr "tail") [] []])
               [MkNode KElse ANone [MkNode KText (AStr "bar") [] []] []]] []).
Proof.
  assert (Hleaf : ∀ k s, in_end_tags "TEXT" k = false →
            closed_seq k [("TEXT", AStr s)] [MkNode KText (AStr s) [] []])
    by (intros k s Hk; by apply closed_leaf; [| | | apply closed_nil]).
  split; [by apply Hleaf |]. split; [by apply Hleaf |]. split; [by apply Hleaf |].
  etrans;
    [| exact (X15_endif_closes_the_else_only (ADict {["expr" := "$name"]}) ANone ANone
                [("TEXT", AStr "foo")] [("TEXT", AStr "bar")] [("TEXT", AStr "tail")]
                _ _ _ (Hleaf KIf "foo" eq_refl) (Hleaf KElse "bar" eq_refl)
                (Hleaf KIf "tail" eq_refl)
                ltac:(repeat constructor; discriminate))].
  vm_compute. reflexivity.
Defined.

(** The text after the [endif] is shown with the true branch, and is
    left out with the [else] branch. *)
Example text_after_endif_follows_the_condition :
  (render Doc.no_source Doc.no_source Doc.no_regex 4 Doc.if_else_then_text
     {["name" := VStr "x"]}).1 = Ok (VStr "footail")
  ∧ (render Doc.no_source Doc.no_source Doc.no_regex 4 Doc.if_else_then_text ∅).1
    = Ok (VStr "bar").
Proof. split; vm_compute; reflexivity. Qed.

(** ** The lexer *)

Lemma span_eq (p : ascii -> bool) (s a b : string) :
  Py.span p s = (a, b) → s = a +:+ b.
Proof.
  revert a b. induction s as [| c s IH]; intros a b; cbn [Py.span].
  - by intros [= <- <-].
  - destruct (p c); [| by intros [= <- <-]].
    destruct (Py.span p s) as [a' b'] eqn:E. intros [= <- <-].
    by rewrite append_cons, (IH a' b' eq_refl).
Qed.

Lemma lstrip_not_space (s : string) :
  starts_with Py.isspace s = false → Py.lstrip s = s.
Proof. destruct s as [| c s]; [done |]. cbn. by intros ->. Qed.

Lemma lstrip_starts (s : string) : starts_with Py.isspace (Py.lstrip s) = false.
Proof.
  induction s as [| c s IH]; [done |]. cbn [Py.lstrip].
  destruct (Py.isspace c) eqn:Hc; [done |]. cbn. by rewrite Hc.
Qed.

Lemma rstrip_starts (s : string) :
  starts_with Py.isspace s = false → starts_with Py.isspace (Py.rstrip s) = false.
Proof.
  destruct s as [| c s]; [done |]. cbn [starts_with Py.rstrip]. intros Hc.
  destruct (Py.rstrip s); [by rewrite Hc; cbn; rewrite Hc | by cbn].
Qed.

(** What [rstrip] returns does not end with white space: none of its
    non-empty suffixes is all white space. *)
Lemma rstrip_suffix (s a r : string) :
  Py.rstrip s = a +:+ r → r ≠ EmptyString → all_chars Py.isspace r = false.
Proof.
  revert a r. induction s as [| c s IH]; intros a r; cbn [Py.rstrip].
  - destruct a; [rewrite append_nil_l; by intros <- | by rewrite append_cons].
  - destruct (Py.rstrip s) as [| d t] eqn:E.
    + destruct (Py.isspace c) eqn:Hc.
      * destruct a; [rewrite append_nil_l; by intros <- | by rewrite append_cons].
      * destruct a as [| x a].
        -- rewrite append_nil_l. intros <- _. cbn. by rewrite Hc.
        -- rewrite append_cons. intros [= <- Ha] Hr.
           destruct a; [rewrite append_nil_l in Ha; by subst r | by rewrite append_cons in Ha].
    + destruct a as [| x a].
      * rewrite append_nil_l. intros <- _.
        change (Py.isspace c && all_chars Py.isspace (String d t) = false).
        rewrite (IH EmptyString (String d t)); [by rewrite andb_false_r | done | done].
      * rewrite append_cons. intros [= <- Ha] Hr. by apply (IH a r).
Qed.

Lemma lstrip_all_space (s : string) :
  Py.lstrip s = EmptyString → all_chars Py.isspace s = true.
Proof.
  induction s as [| c s IH]; [done |]. cbn [Py.lstrip all_chars].
  destruct (Py.isspace c); [exact IH | done].
Qed.

Lemma span_stops_at_blank (s w r : string) :
  Py.contains " " s = true →
  Py.span (fun c => negb (Py.isspace c)) s = (w, r) → r ≠ EmptyString.
Proof.
  revert w r. induction s as [| c s IH]; intros w r; [done |].
  cbn [Py.contains Py.span]. intros Hc.
  destruct (negb (Py.isspace c)) eqn:Hs; [| by intros [= <- <-]].
  destruct (Py.span _ s) as [a b] eqn:E. intros [= <- <-].
  apply (IH a b); [| done].
  apply orb_true_iff in Hc as [Hc | Hc]; [| done].
  unfold Py.ascii_eqb in Hc. apply Ascii.eqb_eq in Hc. by subst c.
Qed.

(** The split of a directive that holds a blank always gives a verb and
    the text of the attributes. *)
Lemma split1_strip (e : string) :
  Py.contains " " (Py.strip e) = true →
  ∃ verb attr_text, Py.split1 (Py.strip e) = [verb; attr_text].
Proof.
  intros Hblank. unfold Py.split1.
  assert (Hstart : starts_with Py.isspace (Py.strip e) = false)
    by (apply rstrip_starts, lstrip_starts).
  rewrite (lstrip_not_space _ Hstart).
  assert (Hsuffix : ∀ w r, Py.strip e = w +:+ r → r ≠ EmptyString →
            all_chars Py.isspace r = false)
    by (intros w r; apply (rstrip_suffix (Py.lstrip e) w r)).
  destruct (Py.strip e) as [| c s]; [done |].
  destruct (Py.span (fun c => negb (Py.isspace c)) (String c s)) as [w r] eqn:E.
  pose proof (span_stops_at_blank _ _ _ Hblank E) as Hr.
  apply span_eq in E. pose proof (Hsuffix w r E Hr) as Hns.
  destruct (Py.lstrip r) as [| d r'] eqn:El.
  - apply lstrip_all_space in El. congruence.
  - by exists w, (String d r').
Qed.

Lemma upper_not_lower (s : string) : all_chars not_lower (Py.upper s) = true.
Proof.
  induction s as [| c s IH]; [done |]. cbn [Py.upper all_chars]. rewrite IH, andb_true_r.
  clear. each_ascii c; vm_compute; reflexivity.
Qed.

Lemma AttributeParser_parse_raises (text : string) (e : exn) :
  AttributeParser.parse text = Raise e → e = ParseException.
Proof.
  unfold AttributeParser.parse, Pyparsing.parseString.
  destruct (AttributeParser.attributes _) as [[ps r] |]; [| by intros [= <-]].
  destruct (Pyparsing.skip_ws r); [done | by intros [= <-]].
Qed.

Lemma lstrip_append_space (lead s : string) :
  all_chars Py.isspace lead = true → Py.lstrip (lead +:+ s) = Py.lstrip s.
Proof.
  induction lead as [| c lead IH]; [done |]. cbn [all_chars].
  intros [Hc Hl]%andb_true_iff. rewrite append_cons. cbn [Py.lstrip]. rewrite Hc. by apply IH.
Qed.

Lemma rstrip_space (s : string) :
  all_chars Py.isspace s = true → Py.rstrip s = EmptyString.
Proof.
  induction s as [| c s IH]; [done |]. cbn [all_chars].
  intros [Hc Hs]%andb_true_iff. cbn [Py.rstrip]. by rewrite (IH Hs), Hc.
Qed.

Lemma rstrip_append_space (s trail : string) :
  all_chars Py.isspace trail = true → Py.rstrip (s +:+ trail) = Py.rstrip s.
Proof.
  intros Ht. induction s as [| c s IH].
  - rewrite append_nil_l. by apply rstrip_space.
  - rewrite append_cons. cbn [Py.rstrip]. by rewrite IH.
Qed.

Lemma rstrip_append (a b : string) :
  Py.rstrip b ≠ EmptyString → Py.rstrip (a +:+ b) = a +:+ Py.rstrip b.
Proof.
  intros Hb. induction a as [| c a IH]; [done |].
  rewrite !append_cons. cbn [Py.rstrip]. rewrite IH.
  destruct (a +:+ Py.rstrip b) as [| d r] eqn:E; [| done].
  exfalso. apply Hb. destruct a; [done | discriminate].
Qed.

Lemma rstrip_not_space (s : string) : all_chars not_space s = true → Py.rstrip s = s.
Proof.
  induction s as [| c s IH]; [done |]. cbn [all_chars].
  intros [Hc Hs]%andb_true_iff. cbn [Py.rstrip]. rewrite (IH Hs).
  unfold not_space in Hc. apply negb_true_iff in Hc. rewrite Hc. by destruct s.
Qed.

Lemma contains_append (c : ascii) (a b : string) :
  Py.contains c (a +:+ b) = Py.contains c a || Py.contains c b.
Proof.
  induction a as [| d a IH]; [done |].
  rewrite append_cons. cbn [Py.contains]. by rewrite IH, orb_assoc.
Qed.

Lemma contains_blank_not_space (s : string) :
  all_chars not_space s = true → Py.contains " " s = false.
Proof.
  induction s as [| c s IH]; [done |]. cbn [all_chars Py.contains].
  intros [Hc Hs]%andb_true_iff. rewrite (IH Hs), orb_false_r.
  unfold Py.ascii_eqb. destruct (Ascii.eqb_spec " " c) as [<- |]; [| done].
  by vm_compute in Hc.
Qed.

(** X16: [tokenize] on a directive written as a verb between white
    space gives the verb in upper case without attributes; on a verb,
    white space and the text of the attributes, with a blank somewhere
    after the verb, it gives the verb in upper case with the mapping that
    the attribute parser reads from that text, or the exception of the
    attribute parser.  That exception is the only one that [tokenize]
    raises: the split of the directive cannot fail. *)
Theorem X16_tokenize (lead verb sep attr_text trail : string) :
  all_chars Py.isspace lead = true →
  all_chars Py.isspace trail = true →
  all_chars not_space verb = true →
  Parser.tokenize (lead +:+ verb +:+ trail) = Ok (Py.upper verb, ANone)
  ∧ (verb ≠ EmptyString →
     sep ≠ EmptyString → all_chars Py.isspace sep = true →
     Py.contains " " (sep +:+ attr_text) = true →
     attr_text ≠ EmptyString → starts_with Py.isspace attr_text = false →
     Py.rstrip attr_text = attr_text →
     Parser.tokenize (lead +:+ verb +:+ sep +:+ attr_text +:+ trail)
     = rbind (AttributeParser.parse attr_text) (fun attributes =>
       Ok (Py.upper verb, ADict attributes)))
  ∧ (∀ expression e, Parser.tokenize expression = Raise e → e = ParseException).
Proof.
  intros Hlead Htrail Hverb. split; [| split].
  - unfold Parser.tokenize, Py.strip. rewrite lstrip_append_space by done.
    destruct verb as [| c verb].
    + rewrite append_nil_l. rewrite (rstrip_space (Py.lstrip trail)); [done |].
      clear -Htrail. induction trail as [| c t IH]; [done |].
      cbn [all_chars] in Htrail. apply andb_true_iff in Htrail as [Hc Ht].
      cbn [Py.lstrip]. rewrite Hc. by apply IH.
    + rewrite lstrip_not_space.
      * rewrite rstrip_append_space, rstrip_not_space by done.
        by rewrite contains_blank_not_space.
      * rewrite append_cons. cbn [starts_with all_chars] in *.
        apply andb_true_iff in Hverb as [Hc _]. unfold not_space in Hc.
        by apply negb_true_iff in Hc.
  - intros Hne Hsep Hspace Hblank Hattr Hstart Hend.
    assert (Hstrip : Py.strip (lead +:+ verb +:+ sep +:+ attr_text +:+ trail)
                     = verb +:+ sep +:+ attr_text).
    { unfold Py.strip. rewrite lstrip_append_space by done.
      rewrite lstrip_not_space.
      - assert (H1 : Py.rstrip (attr_text +:+ trail) = attr_text)
          by (by rewrite rstrip_append_space).
        assert (H2 : Py.rstrip (sep +:+ attr_text +:+ trail) = sep +:+ attr_text).
        { rewrite rstrip_append; rewrite H1; done. }
        rewrite rstrip_append; rewrite H2; [done |].
        destruct sep; [done | discriminate].
      - destruct verb as [| c verb]; [done |]. rewrite append_cons.
        cbn [starts_with all_chars] in *.
        apply andb_true_iff in Hverb as [Hc _]. unfold not_space in Hc.
        by apply negb_true_iff in Hc. }
    unfold Parser.tokenize. rewrite Hstrip.
    rewrite contains_append, Hblank, orb_true_r. cbn [negb].
    unfold Py.split1. rewrite lstrip_not_space.
    + destruct (verb +:+ sep +:+ attr_text) as [| c0 s0] eqn:E;
        [by destruct verb |].
      rewrite <- E. rewrite span_append; [| exact Hverb |].
      * rewrite lstrip_append_space by done. rewrite lstrip_not_space by done.
        by destruct attr_text.
      * destruct sep as [| c sep]; [done |]. rewrite append_cons.
        cbn [starts_with all_chars] in *.
        apply andb_true_iff in Hspace as [Hc _]. by rewrite Hc.
    + destruct verb as [| c verb]; [done |]. rewrite append_cons.
      cbn [starts_with all_chars] in *.
      apply andb_true_iff in Hverb as [Hc _]. unfold not_space in Hc.
      by apply negb_true_iff in Hc.
  - intros expression e. unfold Parser.tokenize.
    destruct (Py.contains " " (Py.strip expression)) eqn:Hblank; cbn [negb]; [| done].
    destruct (split1_strip expression Hblank) as (v & t & ->).
    destruct (AttributeParser.parse t) as [m | e'] eqn:E; cbn [rbind]; [done |].
    intros [= <-]. by apply AttributeParser_parse_raises in E.
Qed.

Lemma X16_tokenize_witness :
  all_chars Py.isspace " " = true
  ∧ all_chars not_space "if" = true
  ∧ Py.contains " " (" " +:+ Doc.attr "expr" "$name") = true
  ∧ Py.rstrip (Doc.attr "expr" "$name") = Doc.attr "expr" "$name"
  ∧ Parser.tokenize (" " +:+ "if" +:+ " ") = Ok (Py.upper "if", ANone)
  ∧ Parser.tokenize (" " +:+ "if" +:+ " " +:+ Doc.attr "expr" "$name" +:+ " ")
    = rbind (AttributeParser.parse (Doc.attr "expr" "$name")) (fun attributes =>
      Ok (Py.upper "if", ADict attributes)).
Proof.
  pose proof (X16_tokenize " " "if" " " (Doc.attr "expr" "$name") " "
                eq_refl eq_refl eq_refl) as (H1 & H2 & _).
  split; [reflexivity |]. split; [reflexivity |]. split; [reflexivity |].
  split; [vm_compute; reflexivity |]. split; [exact H1 |].
  apply H2; [discriminate | discriminate | reflexivity | reflexivity
            | vm_compute; discriminate | reflexivity | vm_compute; reflexivity].
Defined.

Lemma tokenize_raises (expression : string) (e : exn) :
  Parser.tokenize expression = Raise e → e = ParseException.
Proof.
  unfold Parser.tokenize.
  destruct (Py.contains " " (Py.strip expression)) eqn:Hblank; cbn [negb]; [| done].
  destruct (split1_strip expression Hblank) as (verb & attr_text & ->).
  destruct (AttributeParser.parse attr_text) as [m | e'] eqn:E; cbn [rbind]; [done |].
  intros [= <-]. by apply AttributeParser_parse_raises in E.
Qed.

(** The exception that ends the lexer is that of the attribute grammar,
    or the end-marker failure, at a start delimiter that no end delimiter
    follows. *)
Lemma lexemize_from_error (f : nat) (text : string) (toks : list token) (e : exn) :
  Parser.lexemize_from f text = (toks, Some e) →
  e = ParseException
  ∨ (e = EndMarkerNotFound
     ∧ ∃ before after,
         text = before +:+ Parser.start_delimiter +:+ after
         ∧ Py.index Parser.end_delimiter after = None).
Proof.
  revert text toks. induction f as [| f IH]; intros text toks; [done |].
  cbn [Parser.lexemize_from].
  destruct (Py.index Parser.start_delimiter text) as [[value rest] |] eqn:E1; [| done].
  apply index_Some in E1.
  destruct (Py.index Parser.end_delimiter rest) as [[value' rest'] |] eqn:E2.
  - apply index_Some in E2.
    assert (Hdir : ∀ e0, (if Parser.nonempty value'
                          then match Parser.tokenize value' with
                               | Ok t => Ok [t]
                               | Raise ValueError => Raise EndMarkerNotFound
                               | Raise e1 => Raise e1
                               end
                          else Ok []) = Raise e0 → e0 = ParseException).
    { intros e0. destruct (Parser.nonempty value'); [| done].
      destruct (Parser.tokenize value') as [t | e1] eqn:Et; [done |].
      apply tokenize_raises in Et. subst e1. by intros [= <-]. }
    destruct (if Parser.nonempty value' then _ else _) as [ts | e0] eqn:Ed.
    + destruct (Parser.lexemize_from f rest') as [more err] eqn:Er.
      intros [= <- ->]. apply IH in Er as [-> | (-> & before & after & Hrest' & Hnone)];
        [by left |].
      right. split; [done |].
      exists (value +:+ Parser.start_delimiter +:+ value' +:+ Parser.end_delimiter +:+ before),
        after.
      split; [| done]. subst text rest rest'. by rewrite !append_assoc.
    + intros [= <- <-]. left. by apply Hdir.
  - intros [= <- <-]. right. split; [done |]. by exists value, rest.
Qed.

Lemma inner_raises (f : nat) (root : node) (ts : list token) (e : exn) :
  Parser.inner f root ts = Raise e →
  e = RecursionError ∨ ∃ k, e = KeyError k ∧ registry !! k = None.
Proof.
  revert root ts. induction f as [| f IH]; intros root ts; [intros [= <-]; by left |].
  destruct ts as [| [name a] ts]; [done |]. rewrite inner_cons.
  destruct (registry !! name) as [k |] eqn:Hk; [| intros [= <-]; right; by exists name].
  destruct (opens_scope k).
  - destruct (Parser.inner f (MkNode k a [] []) ts) as [[n' r'] | e'] eqn:E; cbn [rbind].
    + apply IH.
    + intros [= <-]. by apply IH in E.
  - destruct (in_end_tags name (cls root)); [done | apply IH].
Qed.

Lemma registry_keys_known (k : string) : k ∈ registry_keys → is_Some (registry !! k).
Proof.
  intros H. repeat (apply elem_of_cons in H as [-> | H]); [by eexists.. |].
  by apply elem_of_nil in H.
Qed.

Section PlainText.
Variables (file_content response_text : string -> option string).
Variable re_compile : string -> option matcher.

(** X17: a document that holds no start delimiter renders to itself in
    every context, and leaves the context alone. *)
Theorem X17_plain_text_renders_itself
    (fuel : nat) (text : string) (ctx : gmap string value) :
  Py.index Parser.start_delimiter text = None →
  Parser.lexemize text = (text_token text, None)
  ∧ render file_content response_text re_compile (2 + fuel) text ctx
    = (Ok (VStr text), World ctx []).
Proof.
  intros Hnone.
  assert (Hlex : Parser.lexemize text = (text_token text, None)).
  { unfold Parser.lexemize. cbn [Parser.lexemize_from]. by rewrite Hnone. }
  split; [exact Hlex |].
  unfold render, Parser.parse. rewrite Hlex. unfold text_token.
  destruct text as [| c text]; [reflexivity |].
  cbn [Parser.nonempty].
  change (Parser.build_ast ([("TEXT", AStr (String c text))], None))
    with (Ok (MkNode KNode ANone [MkNode KText (AStr (String c text)) [] []] [])).
  cbv iota. change (2 + fuel) with (S (S fuel)).
  rewrite evaluate_children by (apply (bool_decide_unpack _); reflexivity).
  unfold bind, evaluate_tokens. rewrite evaluate_tokens_with_single. reflexivity.
Qed.

End PlainText.

Lemma X17_plain_text_renders_itself_witness :
  Py.index Parser.start_delimiter "<div>Noop</div>" = None
  ∧ render Doc.no_source Doc.no_source Doc.no_regex 2 "<div>Noop</div>"
      {["name" := VStr "foo"]}
    = (Ok (VStr "<div>Noop</div>"), World {["name" := VStr "foo"]} []).
Proof.
  split; [reflexivity |].
  exact (proj2 (X17_plain_text_renders_itself Doc.no_source Doc.no_source Doc.no_regex 0
                  "<div>Noop</div>" {["name" := VStr "foo"]} eq_refl)).
Defined.

(** X18: [Parser.parse] raises four exceptions only: that of the
    attribute grammar, the [KeyError] of a name that is not a key of the
    registry, the end-marker failure and [RecursionError]; the end-marker
    failure only for a document in which a start delimiter has no end
    delimiter after it, and [RecursionError] only when the tokens of the
    document open at least as many scopes as the recursion limit has room
    for calls of the builder. *)
Theorem X18_parse_exceptions (limit : nat) (text : string) (e : exn) :
  Parser.parse_within limit text = Raise e →
  e = ParseException
  ∨ (∃ k, e = KeyError k ∧ k ∉ registry_keys)
  ∨ (e = EndMarkerNotFound
     ∧ ∃ before after,
         text = before +:+ "<!--#" +:+ after ∧ Py.index "-->" after = None)
  ∨ (e = RecursionError ∧ limit ≤ opened (Parser.lexemize text).1).
Proof.
  unfold Parser.parse_within, Parser.build_ast_within.
  destruct (Parser.lexemize text) as [toks err] eqn:Hlex. cbn [fst].
  destruct (Parser.inner_within limit (S (length toks)) Parser.head toks)
    as [[root rest] | e'] eqn:E.
  - destruct err as [e' |]; [| done]. intros [= <-].
    unfold Parser.lexemize in Hlex. apply lexemize_from_error in Hlex as [-> | H];
      [by left | by right; right; left].
  - intros [= <-].
    assert (Hcase : e' = RecursionError ∨ e' ≠ RecursionError)
      by (destruct e'; (by left) || (by right)).
    destruct Hcase as [-> | Hne].
    + right; right; right. split; [done |].
      destruct (le_lt_dec limit (opened toks)) as [| Hlt]; [done |].
      rewrite inner_within_enough in E by done.
      by apply inner_enough in E; [| lia].
    + apply inner_within_sound in E; [| by intros [= ->]].
      destruct (inner_raises _ _ _ _ E) as [-> | (k & -> & Hk)]; [done |].
      right; left. exists k. split; [done |].
      intros Hin. apply registry_keys_known in Hin as [? Hin]. congruence.
Qed.

Lemma X18_parse_exceptions_witness :
  Parser.parse_within 2 (Doc.directive "else" +:+ Doc.directive "else")
  = Raise RecursionError
  ∧ 2 ≤ opened (Parser.lexemize (Doc.directive "else" +:+ Doc.directive "else")).1.
Proof.
  assert (H : Parser.parse_within 2 (Doc.directive "else" +:+ Doc.directive "else")
              = Raise RecursionError)
    by (vm_compute; reflexivity).
  split; [exact H |].
  destruct (X18_parse_exceptions 2 _ RecursionError H)
    as [Hp | [(k & Hk & _) | [(He & _) | (_ & Hl)]]]; [discriminate.. | exact Hl].
Defined.

Lemma strip_prefix_append (p r : string) : Py.strip_prefix p (p +:+ r) = Some r.
Proof.
  induction p as [| c p IH]; [by destruct r |].
  rewrite append_cons. cbn [Py.strip_prefix]. unfold Py.ascii_eqb.
  by rewrite Ascii.eqb_refl.
Qed.

Lemma index_start_delimiter (before rest : string) :
  all_chars not_lt before = true →
  Py.index Parser.start_delimiter (before +:+ Parser.start_delimiter +:+ rest)
  = Some (before, rest).
Proof.
  intros Hb. induction before as [| c before IH].
  - rewrite append_nil_l. destruct (Parser.start_delimiter +:+ rest) eqn:E;
      cbn [Py.index]; rewrite <- E, strip_prefix_append; reflexivity.
  - cbn [all_chars] in Hb. apply andb_true_iff in Hb as [Hc Hb].
    rewrite append_cons. cbn [Py.index].
    replace (Py.strip_prefix Parser.start_delimiter
               (String c (before +:+ Parser.start_delimiter +:+ rest))) with (@None string).
    + by rewrite IH.
    + unfold Parser.start_delimiter. cbn [Py.strip_prefix].
      unfold not_lt, Py.ascii_eqb in *. rewrite Ascii.eqb_sym.
      by apply negb_true_iff in Hc as ->.
Qed.

Lemma strip_prefix_end_third (c1 c2 c3 : ascii) (s : string) :
  not_gt c3 = true →
  Py.strip_prefix Parser.end_delimiter (String c1 (String c2 (String c3 s))) = None.
Proof.
  intros H. unfold Parser.end_delimiter. cbn [Py.strip_prefix].
  unfold not_gt, Py.ascii_eqb in *. apply negb_true_iff in H.
  rewrite (Ascii.eqb_sym ">" c3), H.
  by destruct (Ascii.eqb "-" c1), (Ascii.eqb "-" c2).
Qed.

Lemma index_end_delimiter (body rest : string) :
  all_chars not_gt body = true →
  Py.index Parser.end_delimiter (body +:+ Parser.end_delimiter +:+ rest)
  = Some (body, rest).
Proof.
  intros Hb. induction body as [| c body IH].
  - rewrite append_nil_l. destruct (Parser.end_delimiter +:+ rest) eqn:E;
      cbn [Py.index]; rewrite <- E, strip_prefix_append; reflexivity.
  - cbn [all_chars] in Hb. apply andb_true_iff in Hb as [Hc Hb].
    rewrite append_cons. cbn [Py.index].
    replace (Py.strip_prefix Parser.end_delimiter
               (String c (body +:+ Parser.end_delimiter +:+ rest))) with (@None string).
    + by rewrite IH.
    + symmetry. destruct body as [| d [| e body]].
      * by apply strip_prefix_end_third.
      * by apply strip_prefix_end_third.
      * rewrite !append_cons. apply strip_prefix_end_third.
        cbn [all_chars] in Hb. by repeat (apply andb_true_iff in Hb as [? Hb]).
Qed.

(** X19: the lexer reads a document piece by piece: a text without [<],
    then a directive whose body has no [>], then the rest of the document.
    It yields the [TEXT] token of the text unless the text is empty, then
    the token of the directive unless its body is empty, then what the
    rest of the document yields by itself; an exception of the attribute
    grammar in the directive ends the tokens there. *)
Theorem X19_lexemize_directive (before body after : string) :
  all_chars not_lt before = true →
  all_chars not_gt body = true →
  Parser.lexemize (before +:+ "<!--#" +:+ body +:+ "-->" +:+ after)
  = let '(more, err) := Parser.lexemize after in
    if Parser.nonempty body then
      match Parser.tokenize body with
      | Ok t => (text_token before ++ t :: more, err)
      | Raise e => (text_token before, Some e)
      end
    else (text_token before ++ more, err).
Proof.
  intros Hbefore Hbody.
  set (text := before +:+ "<!--#" +:+ body +:+ "-->" +:+ after).
  assert (Hlen : String.length after < String.length text).
  { unfold text. rewrite !length_append. cbn. lia. }
  pose proof (index_start_delimiter before (body +:+ "-->" +:+ after) Hbefore) as Hs.
  pose proof (index_end_delimiter body after Hbody) as He.
  unfold Parser.lexemize at 1. cbn [Parser.lexemize_from].
  unfold Parser.start_delimiter, Parser.end_delimiter in *. fold text in Hs.
  rewrite Hs, He. rewrite (lexemize_from_fuel _ after Hlen).
  destruct (Parser.lexemize after) as [more err]. unfold text_token.
  destruct (Parser.nonempty body); [| reflexivity].
  destruct (Parser.tokenize body) as [t | e] eqn:Et; [reflexivity |].
  apply tokenize_raises in Et. by subst e.
Qed.

Lemma X19_lexemize_directive_witness :
  all_chars not_lt "a" = true
  ∧ all_chars not_gt " endif " = true
  ∧ Parser.lexemize ("a" +:+ "<!--#" +:+ " endif " +:+ "-->" +:+ "b")
    = ([("TEXT", AStr "a"); ("ENDIF", ANone); ("TEXT", AStr "b")], None).
Proof.
  split; [reflexivity |]. split; [reflexivity |].
  etrans; [exact (X19_lexemize_directive "a" " endif " "b" eq_refl eq_refl)
          | vm_compute; reflexivity].
Defined.

(** ** The mapping of the attribute parser *)

Lemma group_result (s : string) (kv : string * string) (r : string) :
  AttributeParser.group s = Some (kv, r) → is_name kv.1 = true.
Proof.
  unfold AttributeParser.group, Pyparsing.And, Pyparsing.ret.
  destruct (AttributeParser.name s) as [[k r1] |] eqn:E1; [| done].
  destruct (AttributeParser.sep r1) as [[x r2] |]; [| done].
  destruct (AttributeParser.value r2) as [[v r3] |]; [| done].
  intros [= <- _]. by apply Word_result in E1.
Qed.

Lemma attributes_names (s : string) (read : list (string * string)) (r : string) :
  AttributeParser.attributes s = Some (read, r) →
  read ≠ [] ∧ Forall (fun kv => is_name kv.1 = true) read.
Proof.
  unfold AttributeParser.attributes, Pyparsing.OneOrMore.
  destruct (AttributeParser.group s) as [[kv r1] |] eqn:E1; [| done].
  apply group_result in E1.
  destruct (Pyparsing.ZeroOrMore_n (String.length r1) AttributeParser.group r1)
    as [xs r'] eqn:E. intros [= <- <-]. split; [done |].
  apply Forall_cons. split; [done |].
  revert E. generalize (String.length r1) as n. intros n. revert r1 xs r'.
  induction n as [| n IH]; intros r1 xs r'; cbn [Pyparsing.ZeroOrMore_n].
  - by intros [= <- <-].
  - destruct (AttributeParser.group r1) as [[kv' r2] |] eqn:E2; [| by intros [= <- <-]].
    apply group_result in E2.
    destruct (Pyparsing.ZeroOrMore_n n AttributeParser.group r2) as [ys r3] eqn:E3.
    intros [= <- <-]. apply Forall_cons. split; [done |]. by apply (IH r2 ys r3).
Qed.

Lemma last_value_elem (k v : string) (pairs : list (string * string)) :
  last_value k pairs = Some v → (k, v) ∈ pairs.
Proof.
  induction pairs as [| [k' v'] pairs IH]; [done |]. cbn [last_value].
  destruct (last_value k pairs) as [v0 |].
  - intros [= ->]. apply elem_of_cons. right. by apply IH.
  - destruct (decide (k' = k)) as [-> |]; [| done]. intros [= ->]. apply elem_of_cons.
    by left.
Qed.

Lemma last_value_first (k v : string) (pairs : list (string * string)) :
  is_Some (last_value k ((k, v) :: pairs)).
Proof.
  cbn [last_value]. destruct (last_value k pairs); [by eexists |].
  destruct (decide (k = k)); [by eexists | done].
Qed.

(** X20: the mapping that the attribute parser returns is never empty,
    and each of its keys is a name of the grammar: a non-empty string of
    lower-case letters, digits, [$], [_] and [-]. *)
Theorem X20_attribute_names (text : string) (m : gmap string string) :
  AttributeParser.parse text = Ok m →
  m ≠ ∅ ∧ ∀ k v, m !! k = Some v → is_name k = true.
Proof.
  unfold AttributeParser.parse, Pyparsing.parseString.
  destruct (AttributeParser.attributes (Py.expandtabs text)) as [[read r] |] eqn:E;
    [| done].
  destruct (Pyparsing.skip_ws r); [| done]. cbn [rbind]. intros [= <-].
  apply attributes_names in E as [Hne Hnames]. split.
  - destruct read as [| [k v] read]; [done |]. intros Hempty.
    destruct (last_value_first k v read) as [v' Hv'].
    rewrite <- dict_of_last_value, Hempty in Hv'. by rewrite lookup_empty in Hv'.
  - intros k v Hk. rewrite dict_of_last_value in Hk. apply last_value_elem in Hk.
    rewrite Forall_forall in Hnames. by apply (Hnames (k, v)).
Qed.

Lemma X20_attribute_names_witness :
  AttributeParser.parse (Doc.attr "key" "value") = Ok {["key" := "value"]}
  ∧ ({["key" := "value"]} : gmap string string) ≠ ∅.
Proof.
  assert (H : AttributeParser.parse (Doc.attr "key" "value") = Ok {["key" := "value"]})
    by (vm_compute; reflexivity).
  split; [exact H |].
  exact (proj1 (X20_attribute_names (Doc.attr "key" "value") {["key" := "value"]} H)).
Defined.

(** ** Recursion *)

Lemma extends_refl {A} (m : M A) : extends m m.
Proof. by intros w r w' H _. Qed.

Lemma extends_bind {A B} (m m' : M A) (k k' : A -> M B) :
  extends m m' → (∀ a, extends (k a) (k' a)) → extends (bind m k) (bind m' k').
Proof.
  intros Hm Hk w r w'. unfold bind.
  destruct (m w) as [[a | e] w1] eqn:E.
  - rewrite (Hm w (Ok a) w1 E) by done. apply Hk.
  - intros [= <- <-] Hr. rewrite (Hm w (Raise e) w1 E); [done |].
    intros [= ->]. by apply Hr.
Qed.

Lemma extends_except {A} (body body' handler : M A) :
  extends body body' →
  extends (except_KeyError body handler) (except_KeyError body' handler).
Proof.
  intros Hb w r w'. unfold except_KeyError.
  destruct (body w) as [[a | e] w1] eqn:E.
  - rewrite (Hb w (Ok a) w1 E) by done. done.
  - destruct e; try (intros [= <- <-] Hr; by rewrite (Hb w _ w1 E Hr)).
    rewrite (Hb w _ w1 E) by done. done.
Qed.

Lemma extends_for_each {A B} (f f' : A -> M B) (l : list A) :
  (∀ x, extends (f x) (f' x)) → extends (for_each f l) (for_each f' l).
Proof.
  intros Hf. induction l as [| x l IH]; cbn [for_each]; [apply extends_refl |].
  apply extends_bind; [apply Hf |]. intros y.
  apply extends_bind; [apply IH |]. intros ys. apply extends_refl.
Qed.

Lemma extends_evaluate_tokens_with (ev ev' : node -> M value) (l : list node) :
  (∀ n, extends (ev n) (ev' n)) →
  extends (evaluate_tokens_with ev l) (evaluate_tokens_with ev' l).
Proof.
  intros Hev. unfold evaluate_tokens_with.
  apply extends_bind; [by apply extends_for_each |]. intros vs. apply extends_refl.
Qed.

Lemma extends_call_or_return (et et' : list node -> M string) (v : value) :
  (∀ l, extends (et l) (et' l)) →
  extends (call_or_return et v) (call_or_return et' v).
Proof.
  intros Het. destruct v; try apply extends_refl. cbn [call_or_return].
  apply extends_bind; [apply Het |]. intros s. apply extends_refl.
Qed.

Section Recursion.
Variables (file_content response_text : string -> option string).
Variable re_compile : string -> option matcher.
Local Abbreviation eval := (evaluate file_content response_text re_compile).

(** One more level of calls changes nothing for a node that did not
    exhaust the levels it had. *)
Lemma evaluate_step (f : nat) (n : node) : extends (eval f n) (eval (S f) n).
Proof.
  revert n. induction f as [| f IH]; intros n.
  { intros w r w'. cbn [evaluate]. by intros [= <- <-]. }
  assert (Htok : ∀ l, extends (evaluate_tokens_with (eval f) l)
                        (evaluate_tokens_with (eval (S f)) l))
    by (intros l; by apply extends_evaluate_tokens_with).
  destruct n as [k a c el]. destruct k.
  - rewrite !(evaluate_children _ _ _ _ KNode) by (apply (bool_decide_unpack _); reflexivity).
    apply extends_bind; [apply Htok |]. intros s. apply extends_refl.
  - rewrite !(evaluate_children _ _ _ _ KNoop) by (apply (bool_decide_unpack _); reflexivity).
    apply extends_bind; [apply Htok |]. intros s. apply extends_refl.
  - apply extends_refl.
  - apply extends_refl.
  - rewrite !(evaluate_children _ _ _ _ KEndblock)
      by (apply (bool_decide_unpack _); reflexivity).
    apply extends_bind; [apply Htok |]. intros s. apply extends_refl.
  - apply extends_refl.
  - rewrite !evaluate_Echo. apply extends_bind; [apply extends_refl |]. intros var.
    apply extends_except. apply extends_bind; [apply extends_refl |]. intros v.
    apply extends_call_or_return, Htok.
  - rewrite !(evaluate_If _ _ _ _ KIf) by (by left).
    apply extends_bind; [apply extends_refl |]. intros expr.
    apply extends_bind; [apply extends_refl |]. intros t.
    apply extends_bind; [apply extends_refl |]. intros [].
    + apply extends_bind; [apply Htok |]. intros s. apply extends_refl.
    + destruct el; [apply extends_refl |].
      apply extends_bind; [apply Htok |]. intros s. apply extends_refl.
  - rewrite !(evaluate_If _ _ _ _ KElif) by (by right).
    apply extends_bind; [apply extends_refl |]. intros expr.
    apply extends_bind; [apply extends_refl |]. intros t.
    apply extends_bind; [apply extends_refl |]. intros [].
    + apply extends_bind; [apply Htok |]. intros s. apply extends_refl.
    + destruct el; [apply extends_refl |].
      apply extends_bind; [apply Htok |]. intros s. apply extends_refl.
  - rewrite !(evaluate_children _ _ _ _ KElse) by (apply (bool_decide_unpack _); reflexivity).
    apply extends_bind; [apply Htok |]. intros s. apply extends_refl.
  - rewrite !(evaluate_children _ _ _ _ KEndif) by (apply (bool_decide_unpack _); reflexivity).
    apply extends_bind; [apply Htok |]. intros s. apply extends_refl.
  - rewrite !evaluate_Include.
    apply extends_bind; [apply extends_refl |]. intros file.
    apply extends_bind; [apply extends_refl |]. intros url.
    destruct (_ || _); [apply extends_refl |].
    apply extends_bind; [apply extends_refl |]. intros content.
    apply extends_bind; [apply extends_refl |]. intros content'.
    apply extends_bind; [apply extends_refl |]. intros set_.
    destruct (given set_); [apply extends_refl |].
    apply extends_bind; [apply extends_refl |]. intros stub.
    destruct (_ && _); [| apply extends_refl].
    apply extends_bind; [apply extends_refl |]. intros block.
    apply extends_call_or_return, Htok.
  - apply extends_refl.
Qed.

(** X21: what a node evaluates to does not depend on the bound on the
    depth of the calls, once the bound is not reached: every larger bound
    gives the same result and the same world. *)
Theorem X21_evaluate_bound_irrelevant
    (f f' : nat) (n : node) (w w' : world) (r : result value) :
  eval f n w = (r, w') →
  r ≠ Raise RecursionError →
  f ≤ f' →
  eval f' n w = (r, w').
Proof.
  intros H Hr Hle. induction Hle as [| f' _ IH]; [done |].
  by apply evaluate_step.
Qed.

(** X22: a block whose first child is an [echo] of the block itself
    cannot be echoed: the calls never end, and whatever the bound on their
    depth the [echo] raises [RecursionError], which no [echo] on the way
    catches; the world is as it was. *)
Theorem X22_block_echoing_itself
    (fuel : nat) (me : gmap string string) (name : string) (c el rest : list node)
    (w : world) :
  me !! "var" = Some name →
  context w !! name = Some (VCallable (MkNode KEcho (ADict me) c el :: rest)) →
  eval fuel (MkNode KEcho (ADict me) c el) w = (Raise RecursionError, w).
Proof.
  intros Hvar Hctx. induction fuel as [| fuel IH]; [reflexivity |].
  rewrite evaluate_Echo. cbn [attr_getitem]. rewrite Hvar, bind_lift_ok.
  unfold except_KeyError, bind at 1, getitem. rewrite Hctx.
  cbn [call_or_return]. unfold bind, evaluate_tokens, evaluate_tokens_with.
  cbn [for_each]. unfold bind. by rewrite IH.
Qed.

End Recursion.

Lemma X21_evaluate_bound_irrelevant_witness :
  evaluate Doc.no_source Doc.no_source Doc.no_regex 2
    (MkNode KNode ANone [MkNode KText (AStr "foo") [] []] []) (World ∅ [])
  = (Ok (VStr "foo"), World ∅ [])
  ∧ Ok (VStr "foo") ≠ Raise RecursionError
  ∧ 2 ≤ 7
  ∧ evaluate Doc.no_source Doc.no_source Doc.no_regex 7
      (MkNode KNode ANone [MkNode KText (AStr "foo") [] []] []) (World ∅ [])
    = (Ok (VStr "foo"), World ∅ []).
Proof.
  split; [reflexivity |]. split; [discriminate |]. split; [lia |].
  apply (X21_evaluate_bound_irrelevant Doc.no_source Doc.no_source Doc.no_regex 2 7);
    [reflexivity | discriminate | lia].
Defined.

Lemma X22_block_echoing_itself_witness :
  ({["var" := "n"]} : gmap string string) !! "var" = Some "n"
  ∧ context (World {["n" := VCallable [MkNode KEcho (ADict {["var" := "n"]}) [] []]]} [])
      !! "n"
    = Some (VCallable [MkNode KEcho (ADict {["var" := "n"]}) [] []])
  ∧ evaluate Doc.no_source Doc.no_source Doc.no_regex 50
      (MkNode KEcho (ADict {["var" := "n"]}) [] [])
      (World {["n" := VCallable [MkNode KEcho (ADict {["var" := "n"]}) [] []]]} [])
    = (Raise RecursionError,
       World {["n" := VCallable [MkNode KEcho (ADict {["var" := "n"]}) [] []]]} []).
Proof.
  split; [reflexivity |]. split; [reflexivity |].
  apply (X22_block_echoing_itself Doc.no_source Doc.no_source Doc.no_regex 50
           {["var" := "n"]} "n" [] [] []); reflexivity.
Defined.
